(** * DMX binning and DMX summary statistics of PINT (pint/utils.py)

    Shallow embedding of [dmxrange], [dmx_ranges_old], [dmx_ranges] and
    [dmxparse].  Observation times (MJD, days) and frequencies (MHz) are
    modelled as exact rationals [Q]; the unit bookkeeping of astropy is
    dropped (all times are in days, all frequencies in MHz).  Python
    exceptions are modelled by the small [result] monad below. *)

From Stdlib Require Import List QArith Qabs Qminmax Bool Arith Lia String Ascii.
From Stdlib Require Import Permutation Sorted Lqa ZArith.
Import ListNotations.
Open Scope Q_scope.

(** ** Python exceptions as a result monad *)

Inductive exn : Type :=
| IndexError
| ValueError
| RuntimeError
| AttributeError
| PrefixError
| ZeroDivisionError.

Inductive result (A : Type) : Type :=
| Ok : A -> result A
| Raise : exn -> result A.
Arguments Ok {A} _.
Arguments Raise {A} _.

Definition bind {A B} (m : result A) (k : A -> result B) : result B :=
  match m with
  | Ok a => k a
  | Raise e => Raise e
  end.

Notation "x <- m ;; k" := (bind m (fun x => k))
  (at level 61, m at next level, right associativity).

(** ** Comparisons and Python's [min] / [max] on floats *)

Definition Qltb (x y : Q) : bool := negb (Qle_bool y x).

(** Python's builtin [min] over a list: the first element not beaten by a
    strictly smaller later one; [min([])] raises [ValueError]. *)
Definition py_min (l : list Q) : result Q :=
  match l with
  | [] => Raise ValueError
  | x :: xs => Ok (fold_left (fun a y => if Qltb y a then y else a) xs x)
  end.

(** Python's builtin [max] (and numpy's [ndarray.max]). *)
Definition py_max (l : list Q) : result Q :=
  match l with
  | [] => Raise ValueError
  | x :: xs => Ok (fold_left (fun a y => if Qltb a y then y else a) xs x)
  end.

(** ** The [dmxrange] class *)

(** A DMX range: low-band MJDs ([self.los]), high-band MJDs ([self.his])
    and the extent [self.min] / [self.max] (named [dmin] / [dmax] here). *)
Record dmxrange := mk_dmxrange {
  los : list Q;
  his : list Q;
  dmin : Q;
  dmax : Q
}.

(** The 0.001 day pad of [dmxrange.__init__]. *)
Definition pad : Q := 1 # 1000.

(** [dmxrange.__init__(lofreqs, hifreqs)]. *)
Definition new_dmxrange (lofreqs hifreqs : list Q) : result dmxrange :=
  mn <- py_min (lofreqs ++ hifreqs) ;;
  mx <- py_max (lofreqs ++ hifreqs) ;;
  Ok (mk_dmxrange lofreqs hifreqs (mn - pad) (mx + pad)).

(** ** The windowed segmenter [dmx_ranges] *)

(** A TOA as the segmenters see it: its MJD ([toas.get_mjds()]) and its
    frequency ([toas.table["freq"]]). *)
Definition toa := (Q * Q)%type.
Definition mjd (t : toa) : Q := fst t.
Definition freq (t : toa) : Q := snd t.

Section Windowed.

Variables (divide_freq binwidth : Q).

(** [binidx = np.logical_and(MJDs > prevbinR2, MJDs <= startMJD + binwidth)]
    applied to the TOAs. *)
Definition batch_of (toas : list toa) (prevbinR2 startMJD : Q) : list toa :=
  filter (fun t => Qltb prevbinR2 (mjd t) && Qle_bool (mjd t) (startMJD + binwidth))
    toas.

(** One pass of the [while True] loop of [dmx_ranges], from the cursor
    [prevbinR2].  [Ok None] is a [break]; [Ok (Some (b, prev'))] continues
    with the new cursor [prev'] after appending [b] (if any) to [DMXs]. *)
Definition window_step (toas : list toa) (prevbinR2 : Q)
  : result (option (option dmxrange * Q)) :=
  if negb (existsb (fun t => Qltb prevbinR2 (mjd t)) toas) then Ok None else
  match filter (fun t => Qltb prevbinR2 (mjd t)) toas with
  | [] => Ok None
  | st :: _ =>
    let startMJD := mjd st in
    let binidx := batch_of toas prevbinR2 startMJD in
    if negb (existsb (fun _ => true) binidx) then Ok None else
    let binMJDs := map mjd binidx in
    let loMJDs := map mjd (filter (fun t => Qltb (freq t) divide_freq) binidx) in
    let hiMJDs := map mjd (filter (fun t => Qle_bool divide_freq (freq t)) binidx) in
    b <- (if existsb (fun t => Qltb (freq t) divide_freq) binidx
             && existsb (fun t => Qltb divide_freq (freq t)) binidx
          then r <- new_dmxrange loMJDs hiMJDs ;; Ok (Some r)
          else Ok None) ;;
    prev' <- py_max binMJDs ;;
    Ok (Some (b, prev'))
  end.

(** The [while True] loop.  Each pass that does not break moves the cursor
    to the maximum of a non-empty batch of MJDs beyond it, so [length toas]
    passes and one final [break] bound the loop; [fuel] counts them. *)
Fixpoint window_loop (fuel : nat) (toas : list toa) (prevbinR2 : Q)
  (DMXs : list dmxrange) : result (list dmxrange) :=
  match fuel with
  | O => Ok DMXs
  | S fuel' =>
    s <- window_step toas prevbinR2 ;;
    match s with
    | None => Ok DMXs
    | Some (b, prev') =>
      let DMXs' := match b with Some r => DMXs ++ [r] | None => DMXs end in
      window_loop fuel' toas prev' DMXs'
    end
  end.

(** [mask[np.logical_and(MJDs >= DMX.min, MJDs <= DMX.max)] = True]. *)
Definition window_mask (toas : list toa) (DMXs : list dmxrange) : list bool :=
  map (fun t => existsb (fun r => Qle_bool (dmin r) (mjd t) && Qle_bool (mjd t) (dmax r))
                  DMXs) toas.

(** [dmx_ranges(toas, divide_freq, binwidth)]: the mask and the DMX ranges
    (the ranges are what the returned DMX component is built from). *)
Definition dmx_ranges (toas : list toa) : result (list bool * list dmxrange) :=
  match toas with
  | [] => Raise IndexError                 (* MJDs[0] *)
  | t0 :: _ =>
    let prevbinR2 := mjd t0 - pad in
    DMXs <- window_loop (S (List.length toas)) toas prevbinR2 [] ;;
    Ok (window_mask toas DMXs, DMXs)
  end.

End Windowed.

(** ** The legacy segmenter [dmx_ranges_old] *)

(** numpy's [rint]: round to the nearest integer, halves to even. *)
Definition rint (y : Q) : Z :=
  let fl := (Qnum y / Zpos (Qden y))%Z in
  let frac := y - inject_Z fl in
  if Qltb frac (1 # 2) then fl
  else if Qltb (1 # 2) frac then (fl + 1)%Z
  else if Z.even fl then fl else (fl + 1)%Z.

(** [x.round(1)]: round to 0.1 day. *)
Definition round1 (x : Q) : Q := Qred (rint (x * 10) # 10).

(** Ascending insertion sort. *)
Fixpoint insert_sorted (x : Q) (l : list Q) : list Q :=
  match l with
  | [] => [x]
  | y :: ys => if Qle_bool x y then x :: y :: ys else y :: insert_sorted x ys
  end.

Definition sort_Q (l : list Q) : list Q := fold_right insert_sorted [] l.

(** Drop an element equal to its predecessor. *)
Fixpoint dedup_sorted (l : list Q) : list Q :=
  match l with
  | x :: ((y :: _) as ys) => if Qeq_bool x y then dedup_sorted ys else x :: dedup_sorted ys
  | _ => l
  end.

(** [np.unique]: sorted distinct values. *)
Definition np_unique (l : list Q) : list Q := dedup_sorted (sort_Q l).

(** Python's two-argument [min(a, b)]. *)
Definition py_min2 (a b : Q) : Q := if Qltb b a then b else a.

Section Legacy.

Variables (divide_freq offset max_diff : Q).

(** The iteration order of the Python set [set(bad_los)]: CPython's hash
    order on floats, left abstract. *)
Variable set_iter : list Q -> list Q.

(** [hi_close] for the low-band date [loMJD = loMJDs[ii]]. *)
Definition hi_close_of (loMJDs hiMJDs : list Q) (ii : nat) (loMJD : Q) : list Q :=
  let hi_close := filter (fun h => Qltb (Qabs (h - loMJD)) max_diff) hiMJDs in
  let hi_close :=
    if (0 <? ii)%nat
    then filter (fun h => Qltb (Qabs (h - loMJD)) (Qabs (h - nth (ii - 1) loMJDs 0)))
           hi_close
    else hi_close in
  if (ii <? List.length loMJDs - 1)%nat
  then filter (fun h => Qltb (Qabs (h - loMJD)) (Qabs (h - nth (ii + 1) loMJDs 0)))
         hi_close
  else hi_close.

(** [for ii, loMJD in enumerate(loMJDs)]: builds [DMXs] and [bad_los].
    ([good_his] only feeds the verbose report and is not modelled.) *)
Fixpoint pair_loop (loMJDs hiMJDs : list Q) (ii : nat) (rest : list Q)
  (DMXs : list dmxrange) (bad_los : list Q) : result (list dmxrange * list Q) :=
  match rest with
  | [] => Ok (DMXs, bad_los)
  | loMJD :: rest' =>
    match hi_close_of loMJDs hiMJDs ii loMJD with
    | [] => pair_loop loMJDs hiMJDs (S ii) rest' DMXs (bad_los ++ [loMJD])
    | hi_close =>
      r <- new_dmxrange [loMJD] hi_close ;;
      pair_loop loMJDs hiMJDs (S ii) rest' (DMXs ++ [r]) bad_los
    end
  end.

(** The inner [for ii, DMX in enumerate(DMXs)] search for [bad_lo]:
    returns the final [(absmindiff, ind)]. *)
Definition best_range (bad_lo : Q) (DMXs : list dmxrange) : Q * nat :=
  snd (fold_left
    (fun (acc : nat * (Q * nat)) DMX =>
       let '(ii, (absmindiff, ind)) := acc in
       let dlo := Qabs (bad_lo - dmin DMX) in
       let dhi := Qabs (bad_lo - dmax DMX) in
       if Qltb dlo max_diff && Qltb dhi max_diff then
         let mindiff := py_min2 dlo dhi in
         if Qltb mindiff absmindiff then (S ii, (mindiff, ii))
         else (S ii, (absmindiff, ind))
       else (S ii, (absmindiff, ind)))
    DMXs (0%nat, (2 * max_diff, 0%nat))).

(** [DMXs[ind].los.append(bad_lo)] followed by the recomputation of
    [DMXs[ind].min] and [DMXs[ind].max]. *)
Definition add_orphan (bad_lo : Q) (ind : nat) (DMXs : list dmxrange)
  : result (list dmxrange) :=
  match nth_error DMXs ind with
  | None => Raise IndexError
  | Some DMX =>
    let los' := los DMX ++ [bad_lo] in
    mn <- py_min (los' ++ his DMX) ;;
    mx <- py_max (los' ++ his DMX) ;;
    Ok (firstn ind DMXs ++ [mk_dmxrange los' (his DMX) mn mx] ++ skipn (S ind) DMXs)
  end.

(** [for bad_lo in bad_los: ...] (the orphan-rescue pass). *)
Fixpoint rescue_loop (bad_los : list Q) (DMXs : list dmxrange) : result (list dmxrange) :=
  match bad_los with
  | [] => Ok DMXs
  | bad_lo :: rest =>
    let '(absmindiff, ind) := best_range bad_lo DMXs in
    DMXs' <- (if Qltb absmindiff max_diff then add_orphan bad_lo ind DMXs else Ok DMXs) ;;
    rescue_loop rest DMXs'
  end.

(** [mask[np.logical_and(MJDs > DMX.min - offset, MJDs < DMX.max + offset)] = True]. *)
Definition legacy_mask (toas : list toa) (DMXs : list dmxrange) : list bool :=
  map (fun t => existsb (fun r => Qltb (dmin r - offset) (mjd t) && Qltb (mjd t) (dmax r + offset))
                  DMXs) toas.

(** [dmx_ranges_old(toas, divide_freq, offset, max_diff)]: the mask and the
    DMX ranges (the verbose report is not modelled). *)
Definition dmx_ranges_old (toas : list toa) : result (list bool * list dmxrange) :=
  let loMJDs := np_unique (map round1 (map mjd (filter (fun t => Qltb (freq t) divide_freq) toas))) in
  let hiMJDs := np_unique (map round1 (map mjd (filter (fun t => Qltb divide_freq (freq t)) toas))) in
  p <- pair_loop loMJDs hiMJDs 0 loMJDs [] [] ;;
  let '(DMXs, bad_los) := p in
  DMXs' <- rescue_loop (set_iter bad_los) DMXs ;;
  Ok (legacy_mask toas DMXs', DMXs').

End Legacy.

(** ** The summarizer [dmxparse] *)

(** A timing-model parameter as [dmxparse] reads it: its name, [.value],
    [.frozen] and [.uncertainty_value]. *)
Record param := mk_param {
  pname : string;
  pvalue : Q;
  pfrozen : bool;
  puncertainty : Q
}.

(** The timing model: its parameters in the order of [model.params]. *)
Definition model := list param.

(** [getattr(model, name)]. *)
Definition getattr (m : model) (name : string) : result param :=
  match find (fun p => String.eqb (pname p) name) m with
  | Some p => Ok p
  | None => Raise AttributeError
  end.

(** A two-dimensional numpy array: its shape and its entries. *)
Record ndarray2 := mk_ndarray2 {
  nrows : nat;
  ncols : nat;
  entry : nat -> nat -> Q
}.

(** The covariance provider: [fitter.parameter_covariance_matrix
    .get_label_matrix(labels).matrix]. *)
Definition cov_provider := list string -> ndarray2.

(** The fitter: its model, and its covariance matrix when it has the
    attribute [parameter_covariance_matrix]. *)
Record fitter := mk_fitter {
  fmodel : model;
  fcov : option cov_provider
}.

(** [s1 in s2] for strings. *)
Definition str_contains (s1 s2 : string) : bool :=
  match String.index 0 s1 s2 with Some _ => true | None => false end.

(** [s.split("_")[-1]]: the text after the last underscore. *)
Fixpoint last_segment_acc (acc s : string) : string :=
  match s with
  | EmptyString => acc
  | String c s' =>
    if Ascii.eqb c "_"%char then last_segment_acc EmptyString s'
    else last_segment_acc (acc ++ String c EmptyString)%string s'
  end.
Definition last_segment (s : string) : string := last_segment_acc EmptyString s.

(** [sorted(...)] on strings (code-point order). *)
Fixpoint insert_string (x : string) (l : list string) : list string :=
  match l with
  | [] => [x]
  | y :: ys => if String.leb x y then x :: y :: ys else y :: insert_string x ys
  end.
Definition sorted_strings (l : list string) : list string := fold_right insert_string [] l.

(** [dmx_epochs]: the suffixes of the parameters whose name contains "DMX_". *)
Definition dmx_epochs (m : model) : list string :=
  map last_segment (filter (str_contains "DMX_"%string) (map pname m)).

Fixpoint qsum_list (l : list Q) : Q :=
  match l with [] => 0 | x :: xs => x + qsum_list xs end.

Definition Q_of_nat (n : nat) : Q := inject_Z (Z.of_nat n).

(** [np.mean] of a plain array. *)
Definition np_mean (l : list Q) : Q := qsum_list l / Q_of_nat (List.length l).

(** A masked array: [None] is a masked entry (or a [nan] placeholder). *)
Definition masked := list (option Q).

Fixpoint unmasked (l : masked) : list Q :=
  match l with
  | [] => []
  | Some x :: xs => x :: unmasked xs
  | None :: xs => unmasked xs
  end.

(** [np.mean] of a masked array: the mean of the unmasked entries. *)
Definition ma_mean (l : masked) : Q := np_mean (unmasked l).

(** [np.ma.array(a, mask=mask)]. *)
Definition ma_array (a : list Q) (mask : list bool) : masked :=
  map (fun '(x, b) => if b : bool then None else Some x) (combine a mask).

(** [sum_{j < n} f j]. *)
Fixpoint qsum (n : nat) (f : nat -> Q) : Q :=
  match n with O => 0 | S n' => qsum n' f + f n' end.

(** [a.sum()]. *)
Definition np_sum (a : ndarray2) : Q :=
  qsum (nrows a) (fun i => qsum (ncols a) (fun j => entry a i j)).

(** [np.dot(a, b)] for two-dimensional arrays: [ValueError] on a shape
    mismatch. *)
Definition np_dot (a b : ndarray2) : result ndarray2 :=
  if Nat.eqb (ncols a) (nrows b)
  then Ok (mk_ndarray2 (nrows a) (ncols b)
             (fun i k => qsum (ncols a) (fun j => entry a i j * entry b j k)))
  else Raise ValueError.

(** [np.identity(n) - np.ones((n, n)) / float(n)]. *)
Definition demean (n : nat) : ndarray2 :=
  mk_ndarray2 n n (fun i j => (if Nat.eqb i j then 1 else 0) - 1 / Q_of_nat n).

(** [np.where(mask)[0]]: the ascending positions of the true entries. *)
Definition where_true (mask : list bool) : list nat :=
  map fst (filter snd (combine (seq 0 (List.length mask)) mask)).

(** The output of [np.insert] for a sequence of at least two (ascending)
    indices: position [pos] holds the inserted value exactly when it is one
    of the shifted indices [ps]; the other positions take [arr] in order. *)
Fixpoint fill_insert (fuel pos : nat) (ps : list nat) (arr : masked) : masked :=
  match fuel with
  | O => []
  | S fuel' =>
    if existsb (Nat.eqb pos) ps then None :: fill_insert fuel' (S pos) ps arr
    else match arr with
         | [] => []
         | x :: arr' => x :: fill_insert fuel' (S pos) ps arr'
         end
  end.

(** [np.insert(arr, idxs, None)] on a float array ([None] becomes [nan]).
    A single index [i] must satisfy [i <= len(arr)].  For several
    (ascending) indices numpy shifts the [j]-th index by [j]
    ([indices[order] += np.arange(numnew)]) and writes the new values
    there; a shifted index beyond the new length raises [IndexError]. *)
Definition np_insert_none (arr : masked) (idxs : list nat) : result masked :=
  match idxs with
  | [i] =>
    if Nat.leb i (List.length arr)
    then Ok (firstn i arr ++ [None] ++ skipn i arr)
    else Raise IndexError
  | _ =>
    let m := List.length idxs in
    let newlen := (List.length arr + m)%nat in
    let ps := map (fun '(j, f) => (f + j)%nat) (combine (seq 0 m) idxs) in
    if existsb (fun p => Nat.leb newlen p) ps then Raise IndexError
    else Ok (fill_insert newlen 0 ps arr)
  end.

(** One DMX epoch as read from the model by the [for ii in dmx_epochs] loop. *)
Record dmx_row := mk_dmx_row {
  row_key : string;
  row_value : Q;
  row_frozen : bool;
  row_err : Q;
  row_r1 : Q;
  row_r2 : Q
}.

Definition get_row (m : model) (ii : string) : result dmx_row :=
  p <- getattr m ("DMX_" ++ ii)%string ;;
  r1 <- getattr m ("DMXR1_" ++ ii)%string ;;
  r2 <- getattr m ("DMXR2_" ++ ii)%string ;;
  Ok (mk_dmx_row ("DMX_" ++ ii)%string (pvalue p) (pfrozen p) (puncertainty p)
        (pvalue r1) (pvalue r2)).

Fixpoint mapM {A B} (f : A -> result B) (l : list A) : result (list B) :=
  match l with
  | [] => Ok []
  | x :: xs => y <- f x ;; ys <- mapM f xs ;; Ok (y :: ys)
  end.

(** The dictionary returned by [dmxparse]. *)
Record dmx_out := mk_dmx_out {
  dmxs : list Q;            (* mean-subtracted DMX values *)
  dmx_verrs : masked;       (* corrected uncertainties *)
  dmxeps : list Q;          (* bin centres *)
  r1s : list Q;
  r2s : list Q;
  bins : list string;
  mean_dmx : Q;
  avg_dm_err : Q
}.

Section Dmxparse.

(** [np.sqrt] on floats, left abstract. *)
Variable sqrt : Q -> Q.

(** The covariance branch of [dmxparse] once [cc] has been fetched:
    [DMX_mean_err] and the corrected errors of the [n] fit bins. *)
Definition cov_correction (cc : ndarray2) (n : nat) : result (Q * list Q) :=
  let DMX_mean_err := sqrt (np_sum cc) / Q_of_nat n in
  let m := demean n in
  c1 <- np_dot m cc ;;
  c2 <- np_dot c1 m ;;
  Ok (DMX_mean_err, map (fun i => sqrt (entry c2 i i)) (seq 0 n)).

(** The labels passed to [get_label_matrix]. *)
Definition cov_labels (dmx_epochs : list string) : list string :=
  sorted_strings (map (fun x => "DMX_" ++ x)%string dmx_epochs).

Definition count_true (l : list bool) : nat := List.length (filter (fun b : bool => b) l).

(** [dmxparse(fitter)] (with [save=False]). *)
Definition dmxparse (f : fitter) : result dmx_out :=
  let epochs := dmx_epochs (fmodel f) in
  match epochs with
  | [] => Raise RuntimeError
  | ep0 :: _ =>
    rows <- mapM (get_row (fmodel f)) epochs ;;
    let DMX_keys := map row_key rows in
    let DMXs := map row_value rows in
    let mask_idxs := map row_frozen rows in
    let DMX_Errs := map row_err rows in
    let DMX_R1 := map row_r1 rows in
    let DMX_R2 := map row_r2 rows in
    let DMX_center_MJD := map (fun r => (row_r1 r + row_r2 r) / 2) rows in
    let any_masked := existsb (fun b : bool => b) mask_idxs in
    let DMX_Errs_ma : masked :=
      if any_masked then ma_array DMX_Errs mask_idxs else map Some DMX_Errs in
    res <- match fcov f with
      | Some prov =>
        let cc := prov (cov_labels epochs) in
        let n := (List.length DMX_Errs - count_true mask_idxs)%nat in
        let DMX_mean := np_mean DMXs in
        c <- cov_correction cc n ;;
        let '(DMX_mean_err, vErrs) := c in
        DMX_vErrs <- (if any_masked
                      then np_insert_none (map Some vErrs) (where_true mask_idxs)
                      else Ok (map Some vErrs)) ;;
        Ok (DMX_mean, DMX_mean_err, DMX_vErrs)
      | None =>
        (* [DMX_vErrs = DMX_Errs]; the returned [DMX_vErrs * DMX_units] is a
           plain Quantity over the data of the (possibly masked) array, so
           the mask is dropped there, while [np.mean] honours it. *)
        Ok (np_mean DMXs, ma_mean DMX_Errs_ma, map Some DMX_Errs)
      end ;;
    let '(DMX_mean, DMX_mean_err, DMX_vErrs) := res in
    if negb (Nat.eqb (List.length DMXs) (List.length DMX_Errs))
       || negb (Nat.eqb (List.length DMXs) (List.length DMX_vErrs))
    then Raise RuntimeError
    else Ok (mk_dmx_out (map (fun v => v - DMX_mean) DMXs) DMX_vErrs DMX_center_MJD
               DMX_R1 DMX_R2 DMX_keys DMX_mean DMX_mean_err)
  end.

End Dmxparse.

(** * The numerical and string helpers of pint/utils.py *)

(** ** [taylor_horner] and [taylor_horner_deriv] *)

(** [taylor_horner_deriv(x, coeffs, deriv_order)] on plain floats (the
    unit bookkeeping multiplies [0.0] by a unit and is dropped).  The
    first access [coeffs[-1]] raises [IndexError] on an empty list; then
    [der_coeffs = coeffs[deriv_order:]] is folded from its end with
    [result = result * x / fact + coeff; fact -= 1]. *)
Definition taylor_horner_deriv (x : Q) (coeffs : list Q) (deriv_order : nat) : result Q :=
  match coeffs with
  | [] => Raise IndexError
  | _ :: _ =>
    let der_coeffs := skipn deriv_order coeffs in
    let fact := Q_of_nat (List.length der_coeffs) in
    Ok (fst (fold_left (fun (st : Q * Q) coeff =>
                          let '(res, fact) := st in (res * x / fact + coeff, fact - 1))
               (rev der_coeffs) (0, fact)))
  end.

(** [taylor_horner(x, coeffs)]. *)
Definition taylor_horner (x : Q) (coeffs : list Q) : result Q :=
  taylor_horner_deriv x coeffs 0.

(** ** [p_to_f] and [pferrs] *)

(** [p_to_f(p, pd, pdd=None)]; [pdd = None] is [None], a given [pdd] is
    [Some pdd].  Division by a zero period is left out of the theorems
    (Python raises or numpy returns [inf]). *)
Definition p_to_f (p pd : Q) (pdd : option Q) : list Q :=
  let f := 1 / p in
  let fd := - pd / (p * p) in
  match pdd with
  | None => [f; fd]
  | Some pdd =>
    let fdd := if Qeq_bool pdd 0 then 0 else 2 * pd * pd / (p ^ 3) - pdd / (p * p) in
    [f; fd; fdd]
  end.

Section Numerics.

(** [np.sqrt], left abstract. *)
Variable sqrt : Q -> Q.

(** [pferrs(porf, porferr, pdorfd=None, pdorfderr=None)]; the optional
    pair is [Some (pdorfd, pdorfderr)]. *)
Definition pferrs (porf porferr : Q) (pdot : option (Q * Q)) : list Q :=
  match pdot with
  | None => [1 / porf; porferr / porf ^ 2]
  | Some (pdorfd, pdorfderr) =>
    let forperr := porferr / porf ^ 2 in
    let fdorpderr := sqrt ((4 * pdorfd ^ 2 * porferr ^ 2) / porf ^ 6
                           + pdorfderr ^ 2 / porf ^ 4) in
    match p_to_f porf pdorfd None with
    | [forp; fdorpd] => [forp; forperr; fdorpd; fdorpderr]
    | _ => []
    end
  end.

(** ** [weighted_mean] *)

(** A binary numpy ufunc on one-dimensional arrays: elementwise on equal
    lengths, a length-1 operand is broadcast, other shapes raise
    [ValueError]. *)
Definition np_map2 (op : Q -> Q -> Q) (a b : list Q) : result (list Q) :=
  if Nat.eqb (List.length a) (List.length b) then Ok (map (fun '(x, y) => op x y) (combine a b))
  else match a, b with
       | [x], _ => Ok (map (op x) b)
       | _, [y] => Ok (map (fun x => op x y) a)
       | _, _ => Raise ValueError
       end.

(** [weighted_mean(arrin, weights_in, inputmean, calcerr, sdev)]: the
    returned tuple as a list ([wmean, werr] or [wmean, werr, wsdev]).  A
    zero total weight (numpy [nan]) is left out of the theorems. *)
Definition weighted_mean (arrin weights_in : list Q) (inputmean : option Q)
  (calcerr sdev : bool) : result (list Q) :=
  let arr := arrin in
  let weights := weights_in in
  let wtot := qsum_list weights in
  wmean <- match inputmean with
           | None => wa <- np_map2 Qmult weights arr ;; Ok (qsum_list wa / wtot)
           | Some m => Ok m
           end ;;
  werr <- (if calcerr
           then t <- np_map2 Qmult (map (fun w => w ^ 2) weights)
                                   (map (fun a => (a - wmean) ^ 2) arr) ;;
                Ok (sqrt (qsum_list t) / wtot)
           else Ok (1 / sqrt wtot)) ;;
  if sdev
  then t <- np_map2 Qmult weights (map (fun a => (a - wmean) ^ 2) arr) ;;
       let wvar := qsum_list t / wtot in
       Ok [wmean; werr; sqrt wvar]
  else Ok [wmean; werr].

(** ** [ELL1_check] *)

(** [ELL1_check(A1, E, TRES, NTOA, outstring=False)], with [A1] in
    light-seconds so that [A1 / c] is [A1] seconds, and [TRES] in
    seconds. *)
Definition ELL1_check (A1 E TRES NTOA : Q) : bool :=
  let lhs := A1 * E ^ 2 in
  let rhs := TRES / sqrt NTOA in
  if Qltb (lhs * 50) rhs then true
  else if Qltb (lhs * 5) rhs then true
  else false.

End Numerics.

(** ** [FTest] *)

Section FTest.

(** [scipy.special.fdtrc], left abstract. *)
Variable fdtrc : Z -> Z -> Q -> Q.



End FTest.

(** ** [numeric_partial] *)

(** [args2 = list(args); args2[ix] = v] for [0 <= ix < len(args)]. *)
Definition list_set (l : list Q) (ix : nat) (v : Q) : list Q :=
  firstn ix l ++ v :: skipn (S ix) l.

(** Python's [args[ix]] index: [-len <= ix < 0] counts from the end;
    [None] is an [IndexError]. *)
Definition py_index (len : nat) (ix : Z) : option nat :=
  if (0 <=? ix)%Z && (ix <? Z.of_nat len)%Z then Some (Z.to_nat ix)
  else if (- Z.of_nat len <=? ix)%Z && (ix <? 0)%Z then Some (Z.to_nat (Z.of_nat len + ix))
  else None.

(** [numeric_partial(f, args, ix, delta)] for a function [f] returning a
    one-dimensional array; [args[ix]] out of range raises [IndexError],
    and [args2[ix] = ...] writes the same position. *)
Definition numeric_partial (f : list Q -> list Q) (args : list Q) (ix : Z) (delta : Q)
  : result (list Q) :=
  match py_index (List.length args) ix with
  | None => Raise IndexError
  | Some i =>
    let a := nth i args 0 in
    let r2 := f (list_set args i (a + delta / 2)) in
    let r3 := f (list_set args i (a - delta / 2)) in
    d <- np_map2 Qminus r2 r3 ;;
    Ok (map (fun v => v / delta) d)
  end.

(** [np.array(r).T] for a list [r] of one-dimensional arrays: the rows
    must share one length (numpy refuses an inhomogeneous shape with
    [ValueError]); an empty [r] gives an empty array. *)
Definition np_T (r : list (list Q)) : result (list (list Q)) :=
  match r with
  | [] => Ok []
  | r0 :: _ =>
    if forallb (fun row => Nat.eqb (List.length row) (List.length r0)) r
    then Ok (map (fun j => map (fun row => nth j row 0) r) (seq 0 (List.length r0)))
    else Raise ValueError
  end.

(** [numeric_partials(f, args, delta)]. *)
Definition numeric_partials (f : list Q -> list Q) (args : list Q) (delta : Q)
  : result (list (list Q)) :=
  r <- mapM (fun i => numeric_partial f args (Z.of_nat i) delta) (seq 0 (List.length args)) ;;
  np_T r.

(** ** Binary mass functions *)

(** Quantities are taken in one consistent unit system (masses in solar
    masses, [x] in light-seconds), so that the final [.to(u.Msun)] is the
    identity. *)
Section Masses.

(** [np.pi] and [const.G]. *)
Variables pi G : Q.
(** [np.sin], [np.sqrt] and [y ** (1.0 / 3)] on [y >= 0], left abstract. *)
Variable sin : Q -> Q.
Variable sqrt : Q -> Q.
Variable cbrt : Q -> Q.

(** [mass_funct(pb, x)]. *)
Definition mass_funct (pb x : Q) : Q := 4 * pi ^ 2 * x ^ 3 / (G * pb ^ 2).

(** [mass_funct2(mp, mc, i)]. *)
Definition mass_funct2 (mp mc i : Q) : Q := (mc * sin i) ^ 3 / (mc + mp) ^ 2.

(** [pulsar_mass(pb, x, mc, inc)]. *)
Definition pulsar_mass (pb x mc inc : Q) : Q :=
  let massfunct := mass_funct pb x in
  let sini := sin inc in
  let ca := massfunct in
  let cb := 2 * massfunct * mc in
  (- cb + sqrt (4 * massfunct * mc ^ 3 * sini ^ 3)) / (2 * ca).

(** [np.sign]. *)
Definition np_sign (y : Q) : Q := if Qltb 0 y then 1 else if Qltb y 0 then -1 else 0.

(** [companion_mass(pb, x, inc, mpsr)]; the local [Q] is [Q_] here. *)
Definition companion_mass (pb x inc mpsr : Q) : Q :=
  let massfunct := mass_funct pb x in
  let sini := sin inc in
  let a := sini ^ 3 in
  let delta0 := massfunct ^ 2 + 6 * mpsr * massfunct * a in
  let delta1 := -2 * massfunct ^ 3 - 18 * a * mpsr * massfunct ^ 2
                - 27 * a ^ 2 * massfunct * mpsr ^ 2 in
  let Q_ := sqrt (108 * a ^ 3 * mpsr ^ 3 * massfunct ^ 3
                  + 729 * a ^ 4 * mpsr ^ 4 * massfunct ^ 2) in
  let Ccubed := (1 # 2) * (delta1 + Q_) in
  let C := np_sign Ccubed * cbrt (Qabs Ccubed) in
  massfunct / 3 / a - C / 3 / a - delta0 / 3 / a / C.

End Masses.

(** ** Python [str] helpers on ASCII text *)

Definition pystr := list ascii.

(** [str.isspace] on ASCII: tab to carriage return, the separators
    0x1c-0x1f and space. *)
Definition is_space (c : ascii) : bool :=
  let n := nat_of_ascii c in
  ((9 <=? n) && (n <=? 13))%nat || ((28 <=? n) && (n <=? 32))%nat.

Fixpoint lstrip (s : pystr) : pystr :=
  match s with
  | [] => []
  | c :: s' => if is_space c then lstrip s' else s
  end.

Definition rstrip (s : pystr) : pystr := rev (lstrip (rev s)).

(** [str.strip()]. *)
Definition strip (s : pystr) : pystr := rstrip (lstrip s).

(** [s.startswith(prefix)]. *)
Fixpoint startswith (s prefix : pystr) {struct prefix} : bool :=
  match prefix, s with
  | [], _ => true
  | p :: ps, c :: cs => Ascii.eqb p c && startswith cs ps
  | _ :: _, [] => false
  end.

(** ** [interesting_lines] *)

(** The [comments] argument: [None], one string, or a sequence of
    strings. *)
Inductive comments_arg :=
| NoComments
| OneComment (c : pystr)
| ManyComments (cs : list pystr).

(** The tuple [cc] built from [comments]. *)
Definition comment_tuple (comments : comments_arg) : list pystr :=
  match comments with
  | NoComments => []
  | OneComment c => [c]
  | ManyComments cs => cs
  end.

(** [list(interesting_lines(lines, comments))]: the generator raises its
    [ValueError] before yielding anything. *)
Definition interesting_lines (lines : list pystr) (comments : comments_arg)
  : result (list pystr) :=
  let cc := comment_tuple comments in
  if existsb (fun c => let cs := strip c in
                       match cs with [] => true | _ => negb (startswith c cs) end) cc
  then Raise ValueError
  else Ok (filter (fun ln => match ln with
                             | [] => false
                             | _ => negb (existsb (startswith ln) cc)
                             end) (map strip lines)).

(** ** [split_prefixed_name] *)

Definition is_digit (c : ascii) : bool :=
  let n := nat_of_ascii c in ((48 <=? n) && (n <=? 57))%nat.

Definition is_alpha (c : ascii) : bool :=
  let n := nat_of_ascii c in
  ((65 <=? n) && (n <=? 90))%nat || ((97 <=? n) && (n <=? 122))%nat.

Definition is_alnum (c : ascii) : bool := is_alpha c || is_digit c.

(** The regular expressions of [prefix_pattern] are sequences of
    character classes, each taken once, greedily any number of times
    ([*]) or greedily at least once ([+]). *)
Inductive atom :=
| One (cls : ascii -> bool)
| Star (cls : ascii -> bool)
| Plus (cls : ascii -> bool).

(** Python's [$] without [re.MULTILINE]: the end of the string, or just
    before a final newline. *)
Definition at_end (s : pystr) : bool :=
  match s with
  | [] => true
  | [c] => Ascii.eqb c (ascii_of_nat 10)
  | _ => false
  end.

Fixpoint run_len (cls : ascii -> bool) (s : pystr) : nat :=
  match s with
  | [] => O
  | c :: s' => if cls c then S (run_len cls s') else O
  end.

(** Backtracking of a greedy repeat: try [k] characters, then [k - 1],
    down to [min]. *)
Fixpoint try_down (k min : nat) (s : pystr) (cont : pystr -> option (list pystr))
  : option (list pystr) :=
  if Nat.ltb k min then None else
  match cont (skipn k s) with
  | Some ps => Some (firstn k s :: ps)
  | None => match k with O => None | S k' => try_down k' min s cont end
  end.

(** [re.match] of a sequence of atoms followed by [$]: the text taken by
    each atom, in the priority order of the backtracking matcher. *)
Fixpoint match_atoms (atoms : list atom) (s : pystr) : option (list pystr) :=
  match atoms with
  | [] => if at_end s then Some [] else None
  | One cls :: rest =>
    match s with
    | c :: s' => if cls c then option_map (cons [c]) (match_atoms rest s') else None
    | [] => None
    end
  | Star cls :: rest => try_down (run_len cls s) 0 s (match_atoms rest)
  | Plus cls :: rest => try_down (run_len cls s) 1 s (match_atoms rest)
  end.

(** A pattern [^(group1)(group2)$]. *)
Definition re_groups (pat : list atom * list atom) (name : pystr) : option (pystr * pystr) :=
  match match_atoms (fst pat ++ snd pat) name with
  | Some pieces =>
    Some (List.concat (firstn (List.length (fst pat)) pieces),
          List.concat (skipn (List.length (fst pat)) pieces))
  | None => None
  end.

Definition underscore : ascii := "_"%char.

(** [prefix_pattern]:
    [^([a-zA-Z]*\d+[a-zA-Z]+)(\d+)$], [^([a-zA-Z]+)(\d+)$] and
    [^([a-zA-Z0-9]+_)(\d+)$] ([\d] on ASCII text). *)
Definition prefix_pattern : list (list atom * list atom) :=
  [([Star is_alpha; Plus is_digit; Plus is_alpha], [Plus is_digit]);
   ([Plus is_alpha], [Plus is_digit]);
   ([Plus is_alnum; One (fun c => Ascii.eqb c underscore)], [Plus is_digit])].

(** The [for pt in prefix_pattern: ... break] loop. *)
Fixpoint first_match (pats : list (list atom * list atom)) (name : pystr)
  : option (pystr * pystr) :=
  match pats with
  | [] => None
  | pt :: pts =>
    match re_groups pt name with
    | Some g => Some g
    | None => first_match pts name
    end
  end.

(** [int(s)] on a string of ASCII digits. *)
Definition int_of_digits (s : pystr) : Z :=
  fold_left (fun acc c => (acc * 10 + (Z.of_nat (nat_of_ascii c) - 48))%Z) s 0%Z.

(** [split_prefixed_name(name)]. *)
Definition split_prefixed_name (name : pystr) : result (pystr * pystr * Z) :=
  match first_match prefix_pattern name with
  | Some (prefix_part, index_part) => Ok (prefix_part, index_part, int_of_digits index_part)
  | None => Raise PrefixError
  end.

(** ** The [PosVel] class *)

(** A [PosVel] with one-dimensional [pos] and [vel] 3-vectors and the
    optional labels [obj] and [origin]. *)
Record PosVel := mk_PosVel {
  pos : list Q;
  vel : list Q;
  obj : option string;
  origin : option string
}.

Definition is_None {A} (o : option A) : bool :=
  match o with None => true | Some _ => false end.

(** [PosVel.__init__(pos, vel, obj, origin)]. *)
Definition new_PosVel (pos vel : list Q) (obj origin : option string) : result PosVel :=
  if negb (Nat.eqb (List.length pos) 3) then Raise ValueError
  else if negb (Nat.eqb (List.length vel) 3) then Raise ValueError
  else if xorb (is_None obj) (is_None origin) then Raise ValueError
  else Ok (mk_PosVel pos vel obj origin).

Definition has_labels (p : PosVel) : bool :=
  negb (is_None (obj p)) && negb (is_None (origin p)).

Definition opt_eqb (a b : option string) : bool :=
  match a, b with
  | Some x, Some y => String.eqb x y
  | None, None => true
  | _, _ => false
  end.

(** Elementwise [+] of two 3-vectors. *)
Definition vec_add (a b : list Q) : list Q := map (fun '(x, y) => x + y) (combine a b).

(** [PosVel.__neg__]. *)
Definition posvel_neg (p : PosVel) : result PosVel :=
  new_PosVel (map Qopp (pos p)) (map Qopp (vel p)) (origin p) (obj p).

(** [PosVel.__add__]. *)
Definition posvel_add (self other : PosVel) : result PosVel :=
  labels <- (if has_labels self && has_labels other then
               if opt_eqb (obj self) (origin other) then Ok (obj other, origin self)
               else if opt_eqb (origin self) (obj other) then Ok (obj self, origin other)
               else Raise ValueError
             else Ok (None, None)) ;;
  let '(o, org) := labels in
  new_PosVel (vec_add (pos self) (pos other)) (vec_add (vel self) (vel other)) o org.

(** [PosVel.__sub__]. *)
Definition posvel_sub (self other : PosVel) : result PosVel :=
  n <- posvel_neg other ;; posvel_add self n.

(** * Properties *)

(** ** General facts on the result monad and on Python's [min] / [max] *)

Lemma bind_Ok {A B} (m : result A) (k : A -> result B) (b : B) :
  bind m k = Ok b -> exists a, m = Ok a /\ k a = Ok b.
Proof. destruct m as [a|e]; simpl; [eauto | discriminate]. Qed.

Lemma bind_Raise {A B} (m : result A) (k : A -> result B) (e : exn) :
  m = Raise e -> bind m k = Raise e.
Proof. intros ->; reflexivity. Qed.

Ltac inv_bind H :=
  let a := fresh "a" in let Ha := fresh "Ha" in
  apply bind_Ok in H; destruct H as [a [Ha H]].

Lemma Qltb_true x y : Qltb x y = true <-> x < y.
Proof.
  unfold Qltb. rewrite negb_true_iff. split; intro H.
  - apply Qnot_le_lt. intro C. apply Qle_bool_iff in C. congruence.
  - destruct (Qle_bool y x) eqn:E; [|reflexivity].
    apply Qle_bool_iff in E. exfalso. apply (Qlt_not_le x y); assumption.
Qed.

Lemma Qltb_false x y : Qltb x y = false <-> y <= x.
Proof.
  unfold Qltb. rewrite negb_false_iff. apply Qle_bool_iff.
Qed.

Lemma fold_min_spec (xs : list Q) (a : Q) :
  let r := fold_left (fun a y => if Qltb y a then y else a) xs a in
  (r = a \/ In r xs) /\ r <= a /\ forall x, In x xs -> r <= x.
Proof.
  revert a; induction xs as [|y ys IH]; intro a; simpl.
  - split; [auto|split; [apply Qle_refl | tauto]].
  - destruct (Qltb y a) eqn:E.
    + apply Qltb_true in E.
      destruct (IH y) as [H1 [H2 H3]]. split; [|split].
      * destruct H1 as [->|H1]; auto.
      * apply Qlt_le_weak. eapply Qle_lt_trans; eauto.
      * intros x [<-|Hx]; auto.
    + apply Qltb_false in E.
      destruct (IH a) as [H1 [H2 H3]]. split; [|split].
      * destruct H1 as [->|H1]; auto.
      * assumption.
      * intros x [<-|Hx]; [eapply Qle_trans; eauto | auto].
Qed.

Lemma fold_max_spec (xs : list Q) (a : Q) :
  let r := fold_left (fun a y => if Qltb a y then y else a) xs a in
  (r = a \/ In r xs) /\ a <= r /\ forall x, In x xs -> x <= r.
Proof.
  revert a; induction xs as [|y ys IH]; intro a; simpl.
  - split; [auto|split; [apply Qle_refl | tauto]].
  - destruct (Qltb a y) eqn:E.
    + apply Qltb_true in E.
      destruct (IH y) as [H1 [H2 H3]]. split; [|split].
      * destruct H1 as [->|H1]; auto.
      * apply Qlt_le_weak. eapply Qlt_le_trans; eauto.
      * intros x [<-|Hx]; auto.
    + apply Qltb_false in E.
      destruct (IH a) as [H1 [H2 H3]]. split; [|split].
      * destruct H1 as [->|H1]; auto.
      * assumption.
      * intros x [<-|Hx]; [eapply Qle_trans; eauto | auto].
Qed.

Lemma py_min_spec (l : list Q) (m : Q) :
  py_min l = Ok m -> In m l /\ forall x, In x l -> m <= x.
Proof.
  destruct l as [|a xs]; simpl; [discriminate|]. intro H; injection H as <-.
  destruct (fold_min_spec xs a) as [H1 [H2 H3]]. split.
  - destruct H1 as [->|H1]; auto.
  - intros x [<-|Hx]; auto.
Qed.

Lemma py_max_spec (l : list Q) (m : Q) :
  py_max l = Ok m -> In m l /\ forall x, In x l -> x <= m.
Proof.
  destruct l as [|a xs]; simpl; [discriminate|]. intro H; injection H as <-.
  destruct (fold_max_spec xs a) as [H1 [H2 H3]]. split.
  - destruct H1 as [->|H1]; auto.
  - intros x [<-|Hx]; auto.
Qed.

Lemma py_min_nonempty (l : list Q) : l <> [] -> exists m, py_min l = Ok m.
Proof. destruct l; simpl; [congruence | eauto]. Qed.

Lemma py_max_nonempty (l : list Q) : l <> [] -> exists m, py_max l = Ok m.
Proof. destruct l; simpl; [congruence | eauto]. Qed.

Lemma new_dmxrange_fields lo hi r :
  new_dmxrange lo hi = Ok r ->
  los r = lo /\ his r = hi /\
  (exists mn mx, py_min (lo ++ hi) = Ok mn /\ py_max (lo ++ hi) = Ok mx /\
                 dmin r = mn - pad /\ dmax r = mx + pad).
Proof.
  unfold new_dmxrange. intro H. inv_bind H. inv_bind H. injection H as <-.
  simpl. repeat split; auto. eauto 7.
Qed.

Lemma in_firstn {A} (x : A) n l : In x (firstn n l) -> In x l.
Proof. intro H. rewrite <- (firstn_skipn n l). apply in_or_app; auto. Qed.

Lemma in_skipn {A} (x : A) n l : In x (skipn n l) -> In x l.
Proof. intro H. rewrite <- (firstn_skipn n l). apply in_or_app; auto. Qed.

(** ** The legacy segmenter keeps both bands in every range *)

Definition both_bands (r : dmxrange) : Prop := los r <> [] /\ his r <> [].

Lemma pair_loop_both_bands max_diff loMJDs hiMJDs ii rest DMXs bad res :
  Forall both_bands DMXs ->
  pair_loop max_diff loMJDs hiMJDs ii rest DMXs bad = Ok res ->
  Forall both_bands (fst res).
Proof.
  revert ii DMXs bad; induction rest as [|lo rest IH]; intros ii DMXs bad HF H; simpl in H.
  - injection H as <-. exact HF.
  - destruct (hi_close_of max_diff loMJDs hiMJDs ii lo) as [|h hs] eqn:E.
    + eapply IH; eauto.
    + eapply IH; [|exact H].
      apply Forall_app; split; [exact HF|].
      constructor; [|constructor]. split; simpl; congruence.
Qed.

Lemma add_orphan_both_bands x ind DMXs DMXs' :
  Forall both_bands DMXs -> add_orphan x ind DMXs = Ok DMXs' -> Forall both_bands DMXs'.
Proof.
  unfold add_orphan. intros HF H.
  destruct (nth_error DMXs ind) as [r|] eqn:E; [|discriminate].
  inv_bind H. inv_bind H. injection H as <-.
  pose proof (nth_error_In _ _ E) as Hin.
  rewrite Forall_forall in HF. pose proof (HF _ Hin) as [_ Hh].
  apply Forall_app; split.
  - apply Forall_forall. intros y Hy. apply HF. eapply in_firstn; eauto.
  - constructor.
    + split; simpl; [|exact Hh]. destruct (los r); simpl; congruence.
    + apply Forall_forall. intros y Hy. apply HF. apply (in_skipn y (S ind)); exact Hy.
Qed.

Lemma rescue_loop_both_bands max_diff bad DMXs DMXs' :
  Forall both_bands DMXs -> rescue_loop max_diff bad DMXs = Ok DMXs' ->
  Forall both_bands DMXs'.
Proof.
  revert DMXs; induction bad as [|x bad IH]; intros DMXs HF H; simpl in H.
  - injection H as <-. exact HF.
  - destruct (best_range max_diff x DMXs) as [absmindiff ind].
    inv_bind H. eapply IH; [|exact H].
    destruct (Qltb absmindiff max_diff).
    + eapply add_orphan_both_bands; eauto.
    + injection Ha as <-. exact HF.
Qed.

(** Three TOAs (MJD, MHz): low band at MJD 0 and 1, high band at MJD 0.2. *)
Definition legacy_example_toas : list toa := [(0, 500); (2 # 10, 1500); (1, 500)].

(** C7: every DMX range returned by [dmx_ranges_old] holds at least one
    low-band date and at least one high-band date, whatever the iteration
    order of the orphan set. *)
Theorem dmx_ranges_old_both_bands divide_freq offset max_diff set_iter toas mask DMXs :
  dmx_ranges_old divide_freq offset max_diff set_iter toas = Ok (mask, DMXs) ->
  forall r, In r DMXs -> los r <> [] /\ his r <> [].
Proof.
  unfold dmx_ranges_old. intro H. inv_bind H. destruct a as [D bad]. inv_bind H.
  injection H as _ <-.
  apply pair_loop_both_bands in Ha; [|constructor]. simpl in Ha.
  apply rescue_loop_both_bands in Ha0; [|exact Ha].
  rewrite Forall_forall in Ha0. exact Ha0.
Qed.

Lemma dmx_ranges_old_both_bands_witness :
  exists mask DMXs,
    dmx_ranges_old 1000 (1 # 100) 15 (fun l => l) legacy_example_toas = Ok (mask, DMXs) /\
    forall r, In r DMXs -> los r <> [] /\ his r <> [].
Proof.
  do 2 eexists. split.
  - vm_compute. reflexivity.
  - eapply (dmx_ranges_old_both_bands 1000 (1 # 100) 15 (fun l => l) legacy_example_toas).
    vm_compute. reflexivity.
Defined.

(** C8: on an empty TOA list [dmx_ranges_old] returns no range and an empty
    mask, while [dmx_ranges] raises [IndexError] at [MJDs[0]] before its
    loop's own "no more MJDs" exit is reached. *)
Theorem empty_toas_segmenters divide_freq binwidth offset max_diff set_iter :
  set_iter [] = [] ->
  dmx_ranges divide_freq binwidth [] = Raise IndexError /\
  dmx_ranges_old divide_freq offset max_diff set_iter [] = Ok ([], []).
Proof.
  intro Hset. split; [reflexivity|].
  unfold dmx_ranges_old. simpl. rewrite Hset. reflexivity.
Qed.

Lemma empty_toas_segmenters_witness :
  (fun l : list Q => l) [] = [] /\
  dmx_ranges 1000 15 [] = Raise IndexError /\
  dmx_ranges_old 1000 (1 # 100) 15 (fun l => l) [] = Ok ([], []).
Proof.
  split; [reflexivity|].
  apply (empty_toas_segmenters 1000 15 (1 # 100) 15 (fun l => l)). reflexivity.
Defined.

(** C6: the orphan-rescue pass recomputes the extent of the range that
    takes an orphan without the 0.001 day pad of [dmxrange.__init__]: on
    [legacy_example_toas] the orphan MJD 1 joins the range of MJD 0, whose
    extent becomes [0, 1] rather than [-0.001, 1.001]. *)
Theorem rescued_range_unpadded set_iter :
  set_iter [1] = [1] ->
  dmx_ranges_old 1000 (1 # 100) 15 set_iter legacy_example_toas
  = Ok ([true; true; true], [mk_dmxrange [0; 1] [1 # 5] 0 1]) /\
  py_min ([0; 1] ++ [1 # 5]) = Ok 0 /\
  ~ (0 == 0 - pad).
Proof.
  intro Hset. split; [|split].
  - unfold dmx_ranges_old. vm_compute in Hset |- *. rewrite Hset. vm_compute. reflexivity.
  - reflexivity.
  - unfold pad. intro C. discriminate C.
Qed.

Lemma rescued_range_unpadded_witness :
  (fun l : list Q => l) [1] = [1] /\
  dmx_ranges_old 1000 (1 # 100) 15 (fun l => l) legacy_example_toas
  = Ok ([true; true; true], [mk_dmxrange [0; 1] [1 # 5] 0 1]).
Proof.
  split; [reflexivity|].
  apply (rescued_range_unpadded (fun l => l)). reflexivity.
Defined.

(** ** The windowed segmenter: one pass of its loop *)

Definition has_low (divide_freq : Q) (batch : list toa) : Prop :=
  exists t, In t batch /\ freq t < divide_freq.

(** At or above the divide, as in [hiMJDs = binMJDs[binfreqs >= divide_freq]]. *)
Definition has_high_or_at (divide_freq : Q) (batch : list toa) : Prop :=
  exists t, In t batch /\ divide_freq <= freq t.

(** Strictly above the divide, as in [np.any(binfreqs > divide_freq)]. *)
Definition has_high (divide_freq : Q) (batch : list toa) : Prop :=
  exists t, In t batch /\ divide_freq < freq t.

Lemma existsb_lt_freq divide_freq batch :
  existsb (fun t => Qltb (freq t) divide_freq) batch = true <-> has_low divide_freq batch.
Proof.
  unfold has_low. rewrite existsb_exists.
  split; intros [t [H1 H2]]; exists t; split; auto; apply Qltb_true; auto.
Qed.

Lemma existsb_gt_freq divide_freq batch :
  existsb (fun t => Qltb divide_freq (freq t)) batch = true <-> has_high divide_freq batch.
Proof.
  unfold has_high. rewrite existsb_exists.
  split; intros [t [H1 H2]]; exists t; split; auto; apply Qltb_true; auto.
Qed.

Lemma map_nonempty {A B} (f : A -> B) (l : list A) (x : A) : In x l -> map f l <> [].
Proof. destruct l; simpl; [tauto | discriminate]. Qed.

(** Everything one pass of the loop does, for a cursor with MJDs beyond it. *)
Lemma window_step_spec divide_freq binwidth toas prev st rest :
  0 <= binwidth ->
  filter (fun t => Qltb prev (mjd t)) toas = st :: rest ->
  let batch := batch_of binwidth toas prev (mjd st) in
  In st batch /\
  exists ob prev',
    window_step divide_freq binwidth toas prev = Ok (Some (ob, prev')) /\
    py_max (map mjd batch) = Ok prev' /\
    match ob with
    | Some r =>
      has_low divide_freq batch /\ has_high divide_freq batch /\
      new_dmxrange (map mjd (filter (fun t => Qltb (freq t) divide_freq) batch))
                   (map mjd (filter (fun t => Qle_bool divide_freq (freq t)) batch)) = Ok r
    | None => ~ (has_low divide_freq batch /\ has_high divide_freq batch)
    end.
Proof.
  intros Hbw Hf batch.
  assert (Hst : In st toas /\ Qltb prev (mjd st) = true).
  { apply (filter_In (fun t => Qltb prev (mjd t))). rewrite Hf. left; reflexivity. }
  destruct Hst as [Hst Hlt].
  assert (Hex : existsb (fun t => Qltb prev (mjd t)) toas = true).
  { apply existsb_exists. eauto. }
  assert (Hin : In st batch).
  { unfold batch, batch_of. apply filter_In. split; [exact Hst|].
    rewrite Hlt. simpl. apply Qle_bool_iff. lra. }
  split; [exact Hin|].
  assert (Hne : existsb (fun _ => true) batch = true).
  { apply existsb_exists. eauto. }
  destruct (py_max_nonempty (map mjd batch)) as [mx Hmx].
  { eapply map_nonempty; eauto. }
  unfold window_step. rewrite Hex, Hf. simpl negb. cbv iota.
  fold batch. rewrite Hne. simpl negb. cbv iota.
  destruct (existsb (fun t => Qltb (freq t) divide_freq) batch) eqn:El;
  destruct (existsb (fun t => Qltb divide_freq (freq t)) batch) eqn:Eh; simpl.
  - apply existsb_lt_freq in El. apply existsb_gt_freq in Eh.
    destruct El as [tl [Htl Hfl]].
    assert (Hlo : In (mjd tl) (map mjd (filter (fun t => Qltb (freq t) divide_freq) batch))).
    { apply in_map. apply filter_In. split; [exact Htl|]. apply Qltb_true. exact Hfl. }
    set (lo := map mjd (filter (fun t => Qltb (freq t) divide_freq) batch)) in *.
    set (hi := map mjd (filter (fun t => Qle_bool divide_freq (freq t)) batch)).
    destruct (py_min_nonempty (lo ++ hi)) as [mn Hmn].
    { intro E. apply app_eq_nil in E as [E _]. rewrite E in Hlo. exact Hlo. }
    destruct (py_max_nonempty (lo ++ hi)) as [mx' Hmx'].
    { intro E. apply app_eq_nil in E as [E _]. rewrite E in Hlo. exact Hlo. }
    unfold new_dmxrange at 1. rewrite Hmn, Hmx'. simpl. rewrite Hmx. simpl.
    eexists; eexists; split; [reflexivity|]. split; [first [exact Hmx | reflexivity]|].
    split; [exists tl; auto|]. split; [exact Eh|].
    unfold new_dmxrange. rewrite Hmn, Hmx'. reflexivity.
  - rewrite Hmx. simpl. eexists; eexists; split; [reflexivity|]. split; [first [exact Hmx | reflexivity]|].
    intros [_ H]. apply existsb_gt_freq in H. congruence.
  - rewrite Hmx. simpl. eexists; eexists; split; [reflexivity|]. split; [first [exact Hmx | reflexivity]|].
    intros [H _]. apply existsb_lt_freq in H. congruence.
  - rewrite Hmx. simpl. eexists; eexists; split; [reflexivity|]. split; [first [exact Hmx | reflexivity]|].
    intros [H _]. apply existsb_lt_freq in H. congruence.
Qed.

(** C5 (as amended): one pass of the [dmx_ranges] loop takes the batch of
    TOAs with MJD in [(prevbinR2, startMJD + binwidth]], yields a range
    exactly when the batch has a frequency strictly below the divide and
    one strictly above it (the range then holds the batch's dates below
    the divide as [los] and those at or above it as [his]), and in every
    case moves the cursor to the batch's largest MJD. *)
Theorem window_step_acceptance divide_freq binwidth toas prev st rest :
  0 <= binwidth ->
  filter (fun t => Qltb prev (mjd t)) toas = st :: rest ->
  let batch := batch_of binwidth toas prev (mjd st) in
  exists ob prev',
    window_step divide_freq binwidth toas prev = Ok (Some (ob, prev')) /\
    (In prev' (map mjd batch) /\ forall t, In t batch -> mjd t <= prev') /\
    (ob <> None <-> has_low divide_freq batch /\ has_high divide_freq batch) /\
    (forall r, ob = Some r ->
       los r = map mjd (filter (fun t => Qltb (freq t) divide_freq) batch) /\
       his r = map mjd (filter (fun t => Qle_bool divide_freq (freq t)) batch)).
Proof.
  intros Hbw Hf batch.
  destruct (window_step_spec divide_freq binwidth toas prev st rest Hbw Hf)
    as [_ [ob [prev' [Hstep [Hmx Hob]]]]].
  fold batch in Hmx, Hob.
  exists ob, prev'. split; [exact Hstep|].
  apply py_max_spec in Hmx as [Hm1 Hm2]. split.
  { split; [exact Hm1|]. intros t Ht. apply Hm2. apply in_map. exact Ht. }
  destruct ob as [r|].
  - destruct Hob as [Hl [Hh Hr]]. split.
    + split; [auto | discriminate].
    + intros r' E. injection E as <-. apply new_dmxrange_fields in Hr as [H1 [H2 _]]. auto.
  - split.
    + split; [congruence | intro H; exfalso; exact (Hob H)].
    + discriminate.
Qed.

Lemma window_step_acceptance_witness :
  0 <= 15 /\
  filter (fun t => Qltb (0 - pad) (mjd t)) [(0, 500); (1 # 20, 1500)]
  = (0, 500) :: [(1 # 20, 1500)] /\
  exists ob prev',
    window_step 1000 15 [(0, 500); (1 # 20, 1500)] (0 - pad) = Ok (Some (ob, prev')) /\
    (In prev' (map mjd (batch_of 15 [(0, 500); (1 # 20, 1500)] (0 - pad) 0)) /\
     forall t, In t (batch_of 15 [(0, 500); (1 # 20, 1500)] (0 - pad) 0) -> mjd t <= prev') /\
    (ob <> None <-> has_low 1000 (batch_of 15 [(0, 500); (1 # 20, 1500)] (0 - pad) 0) /\
                    has_high 1000 (batch_of 15 [(0, 500); (1 # 20, 1500)] (0 - pad) 0)) /\
    (forall r, ob = Some r ->
       los r = map mjd (filter (fun t => Qltb (freq t) 1000)
                         (batch_of 15 [(0, 500); (1 # 20, 1500)] (0 - pad) 0)) /\
       his r = map mjd (filter (fun t => Qle_bool 1000 (freq t))
                         (batch_of 15 [(0, 500); (1 # 20, 1500)] (0 - pad) 0))).
Proof.
  split; [vm_compute; discriminate|]. split; [vm_compute; reflexivity|].
  apply (window_step_acceptance 1000 15 [(0, 500); (1 # 20, 1500)] (0 - pad) (0, 500)
           [(1 # 20, 1500)]).
  - vm_compute. discriminate.
  - vm_compute. reflexivity.
Defined.

(** A batch with one TOA below the divide and one exactly at it. *)
Definition at_divide_toas : list toa := [(0, 500); (1 # 20, 1000)].

(** C5 as stated fails: the batch of [at_divide_toas] has a frequency
    below the divide and one at it, yet no range is made from it. *)
Lemma window_at_divide_rejected :
  has_low 1000 (batch_of 15 at_divide_toas (0 - pad) 0) /\
  has_high_or_at 1000 (batch_of 15 at_divide_toas (0 - pad) 0) /\
  window_step 1000 15 at_divide_toas (0 - pad) = Ok (Some (None, 1 # 20)) /\
  dmx_ranges 1000 15 at_divide_toas = Ok ([false; false], []).
Proof.
  split; [|split; [|split]].
  - exists (0, 500). split; [vm_compute; auto | vm_compute; reflexivity].
  - exists (1 # 20, 1000). split; [vm_compute; auto | vm_compute; discriminate].
  - vm_compute. reflexivity.
  - vm_compute. reflexivity.
Qed.

(** ** The windowed segmenter: every range comes from one batch *)

(** [r] is the range built from the batch that starts after [prev]. *)
Definition window_range (divide_freq binwidth : Q) (toas : list toa) (r : dmxrange) : Prop :=
  exists prev st rest,
    filter (fun t => Qltb prev (mjd t)) toas = st :: rest /\
    let batch := batch_of binwidth toas prev (mjd st) in
    new_dmxrange (map mjd (filter (fun t => Qltb (freq t) divide_freq) batch))
                 (map mjd (filter (fun t => Qle_bool divide_freq (freq t)) batch)) = Ok r.

Lemma window_step_range divide_freq binwidth toas prev r prev' :
  window_step divide_freq binwidth toas prev = Ok (Some (Some r, prev')) ->
  window_range divide_freq binwidth toas r.
Proof.
  unfold window_step. intro H.
  destruct (negb (existsb (fun t => Qltb prev (mjd t)) toas)); [discriminate|].
  destruct (filter (fun t => Qltb prev (mjd t)) toas) as [|st rest] eqn:Hf; [discriminate|].
  destruct (negb (existsb (fun _ => true) (batch_of binwidth toas prev (mjd st))));
    [discriminate|].
  inv_bind H. inv_bind H. injection H as Hb _. subst a.
  destruct (_ && _); [|discriminate].
  inv_bind Ha. injection Ha as <-.
  exists prev, st, rest. split; [exact Hf | exact Ha1].
Qed.

Lemma window_loop_ranges divide_freq binwidth fuel toas prev DMXs res :
  Forall (window_range divide_freq binwidth toas) DMXs ->
  window_loop divide_freq binwidth fuel toas prev DMXs = Ok res ->
  Forall (window_range divide_freq binwidth toas) res.
Proof.
  revert prev DMXs; induction fuel as [|fuel IH]; intros prev DMXs HF H; simpl in H.
  - injection H as <-. exact HF.
  - inv_bind H. destruct a as [[[r|] prev']|].
    + eapply IH; [|exact H]. apply Forall_app; split; [exact HF|].
      constructor; [|constructor]. eapply window_step_range; eauto.
    + eapply IH; [exact HF | exact H].
    + injection H as <-. exact HF.
Qed.

(** The dates of a range are exactly the dates of its batch. *)
Lemma split_bands_dates divide_freq (batch : list toa) x :
  In x (map mjd (filter (fun t => Qltb (freq t) divide_freq) batch)
        ++ map mjd (filter (fun t => Qle_bool divide_freq (freq t)) batch))
  <-> In x (map mjd batch).
Proof.
  rewrite in_app_iff, !in_map_iff. split.
  - intros [[t [<- Ht]]|[t [<- Ht]]]; apply filter_In in Ht; exists t; tauto.
  - intros [t [<- Ht]].
    destruct (Qltb (freq t) divide_freq) eqn:E.
    + left. exists t. split; [reflexivity|]. apply filter_In. auto.
    + right. exists t. split; [reflexivity|]. apply filter_In. split; [exact Ht|].
      unfold Qltb in E. apply negb_false_iff in E. exact E.
Qed.

(** The extent of a windowed range is its batch's extent padded by
    [pad] on each side. *)
Lemma window_range_extent divide_freq binwidth toas r :
  window_range divide_freq binwidth toas r ->
  exists prev st rest,
    filter (fun t => Qltb prev (mjd t)) toas = st :: rest /\
    let batch := batch_of binwidth toas prev (mjd st) in
    (forall x, In x (los r ++ his r) <-> In x (map mjd batch)) /\
    (exists t, In t batch /\ mjd t == dmin r + pad) /\
    (exists t, In t batch /\ mjd t == dmax r - pad) /\
    (forall t, In t batch -> dmin r + pad <= mjd t /\ mjd t <= dmax r - pad).
Proof.
  intros [prev [st [rest [Hf Hr]]]]. exists prev, st, rest. split; [exact Hf|].
  intro batch. fold batch in Hr.
  apply new_dmxrange_fields in Hr as [Hl [Hh [mn [mx [Hmn [Hmx [Hdmin Hdmax]]]]]]].
  apply py_min_spec in Hmn as [Hmn1 Hmn2]. apply py_max_spec in Hmx as [Hmx1 Hmx2].
  rewrite Hl, Hh, Hdmin, Hdmax.
  assert (Hd := split_bands_dates divide_freq batch).
  split; [exact Hd|]. split; [|split].
  - apply Hd, in_map_iff in Hmn1 as [t [Ht1 Ht2]]. exists t. split; [exact Ht2|].
    rewrite Ht1. ring.
  - apply Hd, in_map_iff in Hmx1 as [t [Ht1 Ht2]]. exists t. split; [exact Ht2|].
    rewrite Ht1. ring.
  - intros t Ht. assert (Hx : In (mjd t) (map mjd batch)) by (apply in_map; exact Ht).
    apply Hd in Hx. split.
    + setoid_replace (mn - pad + pad) with mn by ring. apply Hmn2. exact Hx.
    + setoid_replace (mx + pad - pad) with mx by ring. apply Hmx2. exact Hx.
Qed.

Lemma window_mask_spec toas DMXs :
  List.length (window_mask toas DMXs) = List.length toas /\
  (forall i t, nth_error toas i = Some t ->
     (nth_error (window_mask toas DMXs) i = Some true <->
      exists r, In r DMXs /\ dmin r <= mjd t /\ mjd t <= dmax r)).
Proof.
  split; [apply length_map|].
  intros i t Hi. unfold window_mask. rewrite nth_error_map, Hi. simpl.
  split.
  - intro E. injection E as E. apply existsb_exists in E as [r [Hr E]].
    apply andb_true_iff in E as [E1 E2]. apply Qle_bool_iff in E1, E2. eauto.
  - intros [r [Hr [E1 E2]]]. f_equal. apply existsb_exists. exists r. split; [exact Hr|].
    apply andb_true_iff. split; apply Qle_bool_iff; assumption.
Qed.

(** C4 (as amended): every range returned by [dmx_ranges] is built from
    one batch, its dates are exactly the batch's dates, and its extent is
    the batch's extent padded by 0.001 day on each side
    ([dmin + pad] is the earliest and [dmax - pad] the latest MJD of the
    batch); the mask marks a TOA exactly when its MJD lies in the
    inclusive interval [[dmin, dmax]] of some range, with no further pad. *)
Theorem dmx_ranges_extent_and_mask divide_freq binwidth toas mask DMXs :
  dmx_ranges divide_freq binwidth toas = Ok (mask, DMXs) ->
  (forall r, In r DMXs ->
     exists prev st rest,
       filter (fun t => Qltb prev (mjd t)) toas = st :: rest /\
       let batch := batch_of binwidth toas prev (mjd st) in
       (forall x, In x (los r ++ his r) <-> In x (map mjd batch)) /\
       (exists t, In t batch /\ mjd t == dmin r + pad) /\
       (exists t, In t batch /\ mjd t == dmax r - pad) /\
       (forall t, In t batch -> dmin r + pad <= mjd t /\ mjd t <= dmax r - pad)) /\
  List.length mask = List.length toas /\
  (forall i t, nth_error toas i = Some t ->
     (nth_error mask i = Some true <->
      exists r, In r DMXs /\ dmin r <= mjd t /\ mjd t <= dmax r)).
Proof.
  unfold dmx_ranges. intro H. destruct toas as [|t0 ts]; [discriminate|].
  inv_bind H. injection H as <- <-.
  apply window_loop_ranges in Ha; [|constructor].
  split.
  - intros r Hr. rewrite Forall_forall in Ha. apply (window_range_extent divide_freq binwidth). auto.
  - exact (window_mask_spec (t0 :: ts) a).
Qed.

(** Two TOAs, one in each band, 0.05 day apart. *)
Definition pair_toas : list toa := [(0, 500); (1 # 20, 1500)].

Lemma dmx_ranges_extent_and_mask_witness :
  exists mask DMXs,
    dmx_ranges 1000 15 pair_toas = Ok (mask, DMXs) /\
    List.length mask = List.length pair_toas.
Proof.
  do 2 eexists. split; [vm_compute; reflexivity|].
  exact (proj1 (proj2 (dmx_ranges_extent_and_mask 1000 15 pair_toas _ _ eq_refl))).
Defined.

(** C4 as stated fails: the range made from [pair_toas] starts 0.001 day
    before the earliest MJD of its batch (MJD 0). *)
Lemma window_range_padded :
  exists mask r,
    dmx_ranges 1000 15 pair_toas = Ok (mask, [r]) /\
    dmin r == 0 - pad /\ ~ (dmin r == 0).
Proof.
  eexists; eexists. split; [vm_compute; reflexivity|].
  split; vm_compute; [reflexivity | discriminate].
Qed.

(** ** [dmxparse]: what a successful call returns *)

Lemma mapM_length {A B} (f : A -> result B) l l' :
  mapM f l = Ok l' -> List.length l' = List.length l.
Proof.
  revert l'; induction l as [|x xs IH]; intros l' H; simpl in H.
  - injection H as <-. reflexivity.
  - inv_bind H. inv_bind H. injection H as <-. simpl. f_equal. apply IH. exact Ha0.
Qed.

Lemma dmxparse_Ok_inv sqrt f r :
  dmxparse sqrt f = Ok r ->
  exists ep0 eps rows,
    dmx_epochs (fmodel f) = ep0 :: eps /\
    mapM (get_row (fmodel f)) (ep0 :: eps) = Ok rows /\
    mean_dmx r = np_mean (map row_value rows) /\
    dmxs r = map (fun v => v - np_mean (map row_value rows)) (map row_value rows) /\
    List.length (dmx_verrs r) = List.length rows /\
    let mask_idxs := map row_frozen rows in
    let any_masked := existsb (fun b : bool => b) mask_idxs in
    match fcov f with
    | None =>
      dmx_verrs r = map Some (map row_err rows) /\
      avg_dm_err r = ma_mean (if any_masked then ma_array (map row_err rows) mask_idxs
                              else map Some (map row_err rows))
    | Some prov =>
      exists me vs,
        cov_correction sqrt (prov (cov_labels (ep0 :: eps)))
          (List.length (map row_err rows) - count_true mask_idxs) = Ok (me, vs) /\
        avg_dm_err r = me /\
        (if any_masked then np_insert_none (map Some vs) (where_true mask_idxs) = Ok (dmx_verrs r)
         else dmx_verrs r = map Some vs)
    end.
Proof.
  unfold dmxparse. intro H.
  destruct (dmx_epochs (fmodel f)) as [|ep0 eps] eqn:Ee; [discriminate|].
  inv_bind H. rename a into rows. inv_bind H. destruct a as [[m me] ve].
  destruct (negb _ || negb _) eqn:Elen; [discriminate|].
  injection H as <-. simpl.
  apply orb_false_iff in Elen as [_ E2]. apply negb_false_iff, Nat.eqb_eq in E2.
  rewrite length_map in E2.
  exists ep0, eps, rows. split; [reflexivity|]. split; [exact Ha|].
  destruct (fcov f) as [prov|].
  - inv_bind Ha0. destruct a as [me' vs]. inv_bind Ha0. injection Ha0 as <- <- <-.
    split; [reflexivity|]. split; [reflexivity|]. split; [symmetry; exact E2|].
    exists me', vs. split; [exact Ha1|]. split; [reflexivity|].
    destruct (existsb _ _); [exact Ha2 | injection Ha2 as <-; reflexivity].
  - injection Ha0 as <- <- <-.
    split; [reflexivity|]. split; [reflexivity|]. split; [symmetry; exact E2|].
    split; reflexivity.
Qed.

(** ** Mean subtraction *)

Lemma qsum_list_sub_const (l : list Q) (m : Q) :
  qsum_list (map (fun v => v - m) l) == qsum_list l - Q_of_nat (List.length l) * m.
Proof.
  induction l as [|x xs IH]; simpl.
  - unfold Q_of_nat. simpl. ring.
  - rewrite IH. unfold Q_of_nat. rewrite Nat2Z.inj_succ, <- Z.add_1_r, inject_Z_plus.
    simpl. ring.
Qed.

Lemma Q_of_nat_S_neq0 (n : nat) : ~ Q_of_nat (S n) == 0.
Proof.
  unfold Q_of_nat, Qeq. simpl. lia.
Qed.

Lemma mean_subtracted_sum (l : list Q) :
  l <> [] -> qsum_list (map (fun v => v - np_mean l) l) == 0.
Proof.
  intro Hl. rewrite qsum_list_sub_const. unfold np_mean.
  destruct l as [|x xs]; [congruence|].
  remember (List.length (x :: xs)) as k eqn:Ek. simpl in Ek. subst k.
  pose proof (Q_of_nat_S_neq0 (List.length xs)). field. exact H.
Qed.

(** The three parameters [DMX_ii], [DMXR1_ii], [DMXR2_ii] of one DMX bin. *)
Definition dmx_bin_params (ii : string) (value : Q) (frozen : bool) (err r1 r2 : Q)
  : list param :=
  [mk_param ("DMX_" ++ ii)%string value frozen err;
   mk_param ("DMXR1_" ++ ii)%string r1 true 0;
   mk_param ("DMXR2_" ++ ii)%string r2 true 0].

(** A model with four fitted DMX bins of values 1, 2, 3, 4. *)
Definition example_model : model :=
  dmx_bin_params "0001" 1 false (1 # 10) 50000 50010 ++
  dmx_bin_params "0002" 2 false (1 # 10) 50010 50020 ++
  dmx_bin_params "0003" 3 false (1 # 10) 50020 50030 ++
  dmx_bin_params "0004" 4 false (1 # 10) 50030 50040.

(** C1: a successful [dmxparse] returns as [mean_dmx] the mean of the
    values of all DMX bins, frozen or not, and as [dmxs] each value minus
    that mean, so that [dmxs] sums to zero; for the values [1, 2, 3, 4]
    without covariance matrix the mean is 2.5 and [dmxs] is
    [-1.5, -0.5, 0.5, 1.5]. *)
Theorem dmxparse_mean_subtraction (sqrt : Q -> Q) :
  (forall f r, dmxparse sqrt f = Ok r ->
     exists rows,
       mapM (get_row (fmodel f)) (dmx_epochs (fmodel f)) = Ok rows /\
       mean_dmx r = np_mean (map row_value rows) /\
       dmxs r = map (fun v => v - mean_dmx r) (map row_value rows) /\
       qsum_list (dmxs r) == 0) /\
  (exists r, dmxparse sqrt (mk_fitter example_model None) = Ok r /\
     mean_dmx r == 5 # 2 /\
     Forall2 Qeq (dmxs r) [-3 # 2; -1 # 2; 1 # 2; 3 # 2]).
Proof.
  split.
  - intros f r H.
    destruct (dmxparse_Ok_inv sqrt f r H) as [ep0 [eps [rows [Ee [Hrows [Hm [Hd _]]]]]]].
    exists rows. rewrite Ee. split; [exact Hrows|]. split; [exact Hm|].
    rewrite Hm. split; [exact Hd|].
    rewrite Hd. apply mean_subtracted_sum.
    apply mapM_length in Hrows. destruct rows; [discriminate | rewrite <- length_zero_iff_nil; simpl; congruence].
  - eexists. split; [vm_compute; reflexivity|].
    split; [vm_compute; reflexivity|].
    repeat constructor; vm_compute; reflexivity.
Qed.

Lemma dmxparse_mean_subtraction_witness :
  exists r, dmxparse (fun q => q) (mk_fitter example_model None) = Ok r /\
    qsum_list (dmxs r) == 0.
Proof.
  eexists. split; [vm_compute; reflexivity|].
  destruct (proj1 (dmxparse_mean_subtraction (fun q => q)) (mk_fitter example_model None)
              _ eq_refl) as [rows [_ [_ [_ H]]]].
  exact H.
Defined.

(** ** [dmxparse] without covariance matrix *)

(** The per-bin uncertainties with the frozen bins masked. *)
Definition masked_errs (rows : list dmx_row) : masked :=
  map (fun row => if row_frozen row then None else Some (row_err row)) rows.

Lemma ma_array_rows rows :
  ma_array (map row_err rows) (map row_frozen rows) = masked_errs rows.
Proof.
  induction rows as [|row rows IH]; simpl; [reflexivity|].
  unfold ma_array in *. simpl. f_equal. exact IH.
Qed.

Lemma unmasked_masked_errs rows :
  unmasked (masked_errs rows) = map row_err (filter (fun row => negb (row_frozen row)) rows).
Proof.
  induction rows as [|row rows IH]; simpl; [reflexivity|].
  destruct (row_frozen row); simpl; [exact IH | f_equal; exact IH].
Qed.

Lemma masked_errs_none_frozen rows :
  existsb (fun b : bool => b) (map row_frozen rows) = false ->
  map Some (map row_err rows) = masked_errs rows.
Proof.
  induction rows as [|row rows IH]; simpl; [reflexivity|].
  intro H. apply orb_false_iff in H as [H1 H2]. rewrite H1. f_equal. apply IH. exact H2.
Qed.

(** C9 (as amended): without covariance matrix [dmxparse] succeeds; its
    corrected uncertainties are exactly the raw per-bin uncertainties
    (the returned Quantity carries no mask); its [avg_dm_err] is the mean
    of the uncertainties of the bins that are not frozen (of all bins
    when none is frozen), since [np.mean] honours the mask of
    [DMX_Errs]. *)
Theorem dmxparse_no_covariance sqrt f rows :
  fcov f = None ->
  dmx_epochs (fmodel f) <> [] ->
  mapM (get_row (fmodel f)) (dmx_epochs (fmodel f)) = Ok rows ->
  exists r, dmxparse sqrt f = Ok r /\
    dmx_verrs r = map Some (map row_err rows) /\
    avg_dm_err r = np_mean (map row_err (filter (fun row => negb (row_frozen row)) rows)).
Proof.
  intros Hcov Hne Hrows. unfold dmxparse.
  destruct (dmx_epochs (fmodel f)) as [|ep0 eps]; [congruence|].
  rewrite Hrows. cbn [bind]. rewrite Hcov. cbn [bind].
  assert (Hm : (if existsb (fun b : bool => b) (map row_frozen rows)
                then ma_array (map row_err rows) (map row_frozen rows)
                else map Some (map row_err rows)) = masked_errs rows).
  { destruct (existsb _ _) eqn:E; [apply ma_array_rows | apply masked_errs_none_frozen; exact E]. }
  rewrite Hm. cbv zeta.
  rewrite !length_map, Nat.eqb_refl. simpl.
  eexists. split; [reflexivity|]. simpl. split; [reflexivity|].
  unfold ma_mean. rewrite unmasked_masked_errs. reflexivity.
Qed.

(** Two bins: the first frozen with uncertainty 1, the second fitted with
    uncertainty 3. *)
Definition frozen_first_model : model :=
  dmx_bin_params "0001" 1 true 1 50000 50010 ++
  dmx_bin_params "0002" 2 false 3 50010 50020.

Lemma dmxparse_no_covariance_witness :
  exists rows r,
    mapM (get_row frozen_first_model) (dmx_epochs frozen_first_model) = Ok rows /\
    dmxparse (fun q => q) (mk_fitter frozen_first_model None) = Ok r /\
    dmx_verrs r = map Some (map row_err rows).
Proof.
  destruct (dmxparse_no_covariance (fun q => q) (mk_fitter frozen_first_model None) _
              eq_refl ltac:(vm_compute; discriminate) eq_refl) as [r [H1 [H2 _]]].
  eexists. exists r. split; [vm_compute; reflexivity|]. split; [exact H1 | exact H2].
Defined.

(** C9 as stated fails on [mean_err]: with the first bin frozen, the
    returned uncertainties are the raw [1, 3], but [avg_dm_err] is the
    masked mean 3, not the mean 2 of those uncertainties. *)
Lemma dmxparse_no_covariance_masked_mean :
  exists r, dmxparse (fun q => q) (mk_fitter frozen_first_model None) = Ok r /\
    dmx_verrs r = [Some 1; Some 3] /\
    avg_dm_err r == 3 /\ ~ (avg_dm_err r == np_mean [1; 3]).
Proof.
  eexists. split; [vm_compute; reflexivity|].
  split; [reflexivity|].
  split; vm_compute; [reflexivity | discriminate].
Qed.

(** ** Finite sums *)

Lemma qsum_ext n f g :
  (forall j, (j < n)%nat -> f j == g j) -> qsum n f == qsum n g.
Proof.
  induction n as [|n IH]; intro H; simpl; [reflexivity|].
  rewrite IH by (intros j Hj; apply H; lia). rewrite (H n) by lia. reflexivity.
Qed.

Lemma qsum_plus n f g : qsum n (fun j => f j + g j) == qsum n f + qsum n g.
Proof. induction n as [|n IH]; simpl; [ring|]. rewrite IH. ring. Qed.

Lemma qsum_scale_r n f c : qsum n f * c == qsum n (fun j => f j * c).
Proof. induction n as [|n IH]; simpl; [ring|]. rewrite <- IH. ring. Qed.

Lemma qsum_scale_l n f c : c * qsum n f == qsum n (fun j => c * f j).
Proof. induction n as [|n IH]; simpl; [ring|]. rewrite <- IH. ring. Qed.

Lemma qsum_swap n m f :
  qsum n (fun i => qsum m (fun j => f i j)) == qsum m (fun j => qsum n (fun i => f i j)).
Proof.
  induction n as [|n IH]; simpl.
  - induction m as [|m IHm]; simpl; [reflexivity|]. rewrite <- IHm. ring.
  - rewrite IH. rewrite <- qsum_plus. reflexivity.
Qed.

Lemma qsum_const n c : qsum n (fun _ => c) == Q_of_nat n * c.
Proof.
  induction n as [|n IH]; simpl.
  - unfold Q_of_nat. simpl. ring.
  - rewrite IH. unfold Q_of_nat. rewrite Nat2Z.inj_succ, <- Z.add_1_r, inject_Z_plus. simpl. ring.
Qed.

Lemma qsum_delta n i a :
  (i < n)%nat -> qsum n (fun j => if Nat.eqb i j then a j else 0) == a i.
Proof.
  induction n as [|n IH]; intro Hi; simpl; [lia|].
  destruct (Nat.eq_dec i n) as [->|Hne].
  - rewrite Nat.eqb_refl.
    rewrite (qsum_ext n _ (fun _ => 0)).
    + rewrite qsum_const. ring.
    + intros j Hj. destruct (Nat.eqb_spec n j); [lia | reflexivity].
  - apply Nat.eqb_neq in Hne. rewrite Hne. rewrite IH by (apply Nat.eqb_neq in Hne; lia). ring.
Qed.

(** ** The de-meaning projector, as the spec states it *)

(** [(M C M^t)_{il} = sum_j sum_k M_ij C_jk M_lk] with [M = I - J/n]:
    the spec's formula for the covariance after mean subtraction. *)
Definition spec_projected (n : nat) (C : ndarray2) (i l : nat) : Q :=
  let M := entry (demean n) in
  qsum n (fun j => qsum n (fun k => M i j * entry C j k * M l k)).

Lemma demean_sym n i j : entry (demean n) i j = entry (demean n) j i.
Proof. simpl. rewrite Nat.eqb_sym. reflexivity. Qed.

Lemma nth_map_seq (g : nat -> Q) n i : (i < n)%nat -> nth i (map g (seq 0 n)) 0 = g i.
Proof.
  intro Hi. rewrite nth_indep with (d' := g 0%nat) by (rewrite length_map, length_seq; exact Hi).
  rewrite map_nth, seq_nth by exact Hi. reflexivity.
Qed.

(** The code's [np.dot(np.dot(m, cc), m)] agrees with [M C M^t]. *)
Lemma cov_correction_diag sqrt cc n me vs :
  cov_correction sqrt cc n = Ok (me, vs) ->
  me = sqrt (np_sum cc) / Q_of_nat n /\
  nrows cc = n /\ ncols cc = n /\
  exists ds, vs = map sqrt ds /\ List.length ds = n /\
    forall i, (i < n)%nat -> nth i ds 0 == spec_projected n cc i i.
Proof.
  unfold cov_correction, np_dot. simpl ncols. simpl nrows.
  intro H. destruct (Nat.eqb_spec n (nrows cc)) as [Hr|]; [|discriminate].
  cbn [bind] in H. simpl in H. destruct (Nat.eqb_spec (ncols cc) n) as [Hc|]; [|discriminate].
  injection H as <- <-. split; [reflexivity|]. split; [congruence|]. split; [exact Hc|].
  eexists. split; [rewrite map_map; reflexivity|].
  split; [rewrite length_map, length_seq; reflexivity|].
  intros i Hi. rewrite nth_map_seq by exact Hi. unfold spec_projected.
  rewrite Hc. cbn [entry].
  rewrite (qsum_ext n _ (fun j => qsum n (fun k => entry (demean n) i k * entry cc k j
                                                    * entry (demean n) j i)))
    by (intros j _; apply qsum_scale_r).
  rewrite qsum_swap. apply qsum_ext. intros k _. apply qsum_ext. intros j _.
  rewrite (demean_sym n j i). cbn [entry demean]. ring.
Qed.

(** With [C = v I] on [n] bins, the variance after mean subtraction is
    [v (1 - 1/n)]. *)
Lemma spec_projected_scalar n (C : ndarray2) v i :
  (forall j k, (j < n)%nat -> (k < n)%nat -> entry C j k == if Nat.eqb j k then v else 0) ->
  (i < n)%nat ->
  spec_projected n C i i == v * (1 - 1 / Q_of_nat n).
Proof.
  intros HC Hi. unfold spec_projected. cbn [entry demean].
  set (c := 1 / Q_of_nat n).
  set (M := fun j => (if Nat.eqb i j then 1 else 0) - c).
  rewrite (qsum_ext n _ (fun j => v * ((if Nat.eqb i j then 1 - 2 * c else 0) + c * c))).
  - rewrite <- qsum_scale_l, qsum_plus, qsum_delta by exact Hi.
    rewrite qsum_const.
    assert (Hn : ~ Q_of_nat n == 0).
    { destruct n; [lia | apply Q_of_nat_S_neq0]. }
    unfold c. field. exact Hn.
  - intros j Hj.
    rewrite (qsum_ext n _ (fun k => if Nat.eqb j k then M j * v * M k else 0)).
    + rewrite qsum_delta by exact Hj. unfold M.
      destruct (Nat.eqb i j); ring.
    + intros k Hk. rewrite HC by assumption. unfold M.
      destruct (Nat.eqb j k); ring.
Qed.

(** The number of fitted bins, as [dmxparse] computes it. *)
Lemma count_fit rows :
  (List.length (map row_err rows) - count_true (map row_frozen rows))%nat
  = List.length (filter (fun row => negb (row_frozen row)) rows).
Proof.
  rewrite length_map. unfold count_true.
  induction rows as [|row rows IH]; simpl; [reflexivity|].
  destruct (row_frozen row); simpl.
  - exact IH.
  - rewrite <- IH. assert (H : (List.length (filter (fun b : bool => b) (map row_frozen rows))
                                <= List.length rows)%nat).
    { rewrite <- (length_map row_frozen rows). apply filter_length_le. }
    destruct (List.length (filter (fun b : bool => b) (map row_frozen rows))); lia.
Qed.

(** ** [np.insert] keeps the inserted-into values in order *)

Lemma unmasked_app (l1 l2 : masked) : unmasked (l1 ++ l2) = unmasked l1 ++ unmasked l2.
Proof.
  induction l1 as [|[x|] l1 IH]; simpl; [reflexivity | f_equal; exact IH | exact IH].
Qed.

Lemma unmasked_map_Some (l : list Q) : unmasked (map Some l) = l.
Proof. induction l as [|x l IH]; simpl; [reflexivity | f_equal; exact IH]. Qed.

(** How many of the positions [pos .. pos + fuel - 1] are not (resp. are)
    among [ps], and how many equal [h]. *)
Fixpoint positions_out (fuel pos : nat) (ps : list nat) : nat :=
  match fuel with
  | O => O
  | S f => ((if existsb (Nat.eqb pos) ps then 0 else 1) + positions_out f (S pos) ps)%nat
  end.

Fixpoint positions_in (fuel pos : nat) (ps : list nat) : nat :=
  match fuel with
  | O => O
  | S f => ((if existsb (Nat.eqb pos) ps then 1 else 0) + positions_in f (S pos) ps)%nat
  end.

Lemma fill_insert_unmasked fuel pos ps arr :
  unmasked (fill_insert fuel pos ps arr) = unmasked (firstn (positions_out fuel pos ps) arr).
Proof.
  revert pos arr; induction fuel as [|fuel IH]; intros pos arr; simpl; [reflexivity|].
  destruct (existsb (Nat.eqb pos) ps); simpl.
  - apply IH.
  - destruct arr as [|[x|] arr]; simpl.
    + destruct (positions_out fuel (S pos) ps); reflexivity.
    + f_equal. apply IH.
    + apply IH.
Qed.

Lemma positions_out_in fuel pos ps :
  (positions_out fuel pos ps + positions_in fuel pos ps = fuel)%nat.
Proof.
  revert pos; induction fuel as [|fuel IH]; intro pos; simpl; [reflexivity|].
  specialize (IH (S pos)). destruct (existsb (Nat.eqb pos) ps); lia.
Qed.

Lemma positions_in_past fuel pos h :
  (h < pos)%nat -> positions_in fuel pos [h] = O.
Proof.
  revert pos; induction fuel as [|fuel IH]; intros pos Hh; simpl; [reflexivity|].
  destruct (Nat.eqb_spec pos h); [lia|]. simpl. apply IH. lia.
Qed.

Lemma positions_in_single fuel pos h : (positions_in fuel pos [h] <= 1)%nat.
Proof.
  revert pos; induction fuel as [|fuel IH]; intro pos; simpl; [lia|].
  destruct (Nat.eqb_spec pos h) as [->|]; simpl.
  - rewrite positions_in_past by lia. lia.
  - apply IH.
Qed.

Lemma positions_in_cons fuel pos h t :
  (positions_in fuel pos (h :: t) <= positions_in fuel pos [h] + positions_in fuel pos t)%nat.
Proof.
  revert pos; induction fuel as [|fuel IH]; intro pos; simpl; [lia|].
  specialize (IH (S pos)). simpl in IH.
  destruct (Nat.eqb pos h), (existsb (Nat.eqb pos) t); simpl; lia.
Qed.

Lemma positions_in_le fuel pos ps : (positions_in fuel pos ps <= List.length ps)%nat.
Proof.
  induction ps as [|h t IH].
  - revert pos; induction fuel as [|fuel IHf]; intro pos; simpl; [lia | apply IHf].
  - pose proof (positions_in_cons fuel pos h t). pose proof (positions_in_single fuel pos h).
    simpl. lia.
Qed.

Lemma np_insert_none_unmasked arr idxs out :
  np_insert_none arr idxs = Ok out -> unmasked out = unmasked arr.
Proof.
  unfold np_insert_none. intro H.
  assert (Hmulti : forall newlen ps,
             (List.length arr + List.length ps <= newlen)%nat ->
             unmasked (fill_insert newlen 0 ps arr) = unmasked arr).
  { intros newlen ps Hle. rewrite fill_insert_unmasked. rewrite firstn_all2; [reflexivity|].
    pose proof (positions_out_in newlen 0 ps). pose proof (positions_in_le newlen 0 ps). lia. }
  destruct idxs as [|i [|i2 idxs]].
  - destruct (existsb _ _); [discriminate|]. injection H as <-. apply Hmulti. simpl. lia.
  - destruct (Nat.leb i (List.length arr)); [|discriminate]. injection H as <-.
    rewrite !unmasked_app. simpl. rewrite <- unmasked_app, firstn_skipn. reflexivity.
  - destruct (existsb _ _); [discriminate|]. injection H as <-. apply Hmulti.
    simpl List.length. rewrite length_map, length_combine, length_seq, Nat.min_id. lia.
Qed.

(** ** [dmxparse] with covariance matrix *)

(** C2: with a covariance provider, a successful [dmxparse] works on the
    [n x n] matrix [cc] of the [n] fitted bins; its [avg_dm_err] is
    [sqrt(sum of the entries of cc) / n]; its corrected uncertainties, read
    without the placeholders, are the square roots of numbers equal to the
    diagonal entries of [M cc M^t] with [M = I - J/n] (and are all of the
    output when no bin is frozen); for [cc = v I] these entries equal
    [v (1 - 1/n)]. *)
Theorem dmxparse_cov_correction sqrt f prov r :
  fcov f = Some prov ->
  dmxparse sqrt f = Ok r ->
  exists rows ds,
    mapM (get_row (fmodel f)) (dmx_epochs (fmodel f)) = Ok rows /\
    let n := List.length (filter (fun row => negb (row_frozen row)) rows) in
    let cc := prov (cov_labels (dmx_epochs (fmodel f))) in
    nrows cc = n /\ ncols cc = n /\
    avg_dm_err r = sqrt (np_sum cc) / Q_of_nat n /\
    unmasked (dmx_verrs r) = map sqrt ds /\
    ((forall row, In row rows -> row_frozen row = false) ->
     dmx_verrs r = map Some (map sqrt ds)) /\
    List.length ds = n /\
    (forall i, (i < n)%nat -> nth i ds 0 == spec_projected n cc i i) /\
    (forall v, (forall j k, (j < n)%nat -> (k < n)%nat ->
                  entry cc j k == if Nat.eqb j k then v else 0) ->
     forall i, (i < n)%nat -> nth i ds 0 == v * (1 - 1 / Q_of_nat n)).
Proof.
  intros Hcov H.
  destruct (dmxparse_Ok_inv sqrt f r H)
    as [ep0 [eps [rows [Ee [Hrows [_ [_ [_ Hc]]]]]]]].
  rewrite Hcov in Hc. cbv zeta in Hc. destruct Hc as [me [vs [Hcc [Hme Hv]]]].
  rewrite count_fit in Hcc.
  apply cov_correction_diag in Hcc as [Hme' [Hr [Hcl [ds [Hvs [Hlen Hds]]]]]].
  exists rows, ds. rewrite Ee. split; [exact Hrows|]. cbv zeta.
  split; [exact Hr|]. split; [exact Hcl|]. split; [congruence|].
  split; [|split; [|split; [exact Hlen | split; [exact Hds|]]]].
  - destruct (existsb _ _).
    + apply np_insert_none_unmasked in Hv. rewrite Hv, unmasked_map_Some. exact Hvs.
    + rewrite Hv, unmasked_map_Some. exact Hvs.
  - intro Hnf. destruct (existsb (fun b : bool => b) (map row_frozen rows)) eqn:E.
    + exfalso. apply existsb_exists in E as [b [Hb Eb]]. subst b.
      apply in_map_iff in Hb as [row [Hfr Hrow]]. rewrite Hnf in Hfr by exact Hrow.
      discriminate.
    + rewrite Hv, Hvs. reflexivity.
  - intros v HC i Hi. rewrite Hds by exact Hi. apply spec_projected_scalar; assumption.
Qed.

(** The label-addressed covariance matrix [v I] over the labels it is
    given that are fitted: [fit] of them. *)
Definition scalar_cov (fit : nat) (v : Q) : cov_provider :=
  fun _ => mk_ndarray2 fit fit (fun j k => if Nat.eqb j k then v else 0).

Lemma dmxparse_cov_correction_witness :
  exists r, dmxparse (fun q => q) (mk_fitter example_model (Some (scalar_cov 4 4))) = Ok r /\
    avg_dm_err r = np_sum (scalar_cov 4 4 []) / Q_of_nat 4.
Proof.
  destruct (dmxparse_cov_correction (fun q => q) (mk_fitter example_model (Some (scalar_cov 4 4)))
              (scalar_cov 4 4) _ eq_refl eq_refl) as [rows [ds [Hrows [_ [_ [H _]]]]]].
  vm_compute in Hrows. injection Hrows as <-.
  eexists. split; [vm_compute; reflexivity|].
  vm_compute in H. vm_compute. exact H.
Defined.

(** ** Placeholders for frozen bins *)

(** Three bins, the first two frozen. *)
Definition two_frozen_model : model :=
  dmx_bin_params "0001" 1 true (1 # 10) 50000 50010 ++
  dmx_bin_params "0002" 2 true (1 # 10) 50010 50020 ++
  dmx_bin_params "0003" 3 false (1 # 10) 50020 50030.

(** Three bins, the last two frozen. *)
Definition last_two_frozen_model : model :=
  dmx_bin_params "0001" 1 false (1 # 10) 50000 50010 ++
  dmx_bin_params "0002" 2 true (1 # 10) 50010 50020 ++
  dmx_bin_params "0003" 3 true (1 # 10) 50020 50030.

(** C3: with two frozen bins the placeholders are not put back at the
    frozen positions.  [np.insert] reads the indices [np.where(mask)[0]]
    as positions of the array before insertion, so the [j]-th placeholder
    lands at index [f_j + j]: bins 0 and 1 frozen give
    [[nan, err, nan]] instead of [[nan, nan, err]], and bins 1 and 2
    frozen raise [IndexError]. *)
Theorem np_insert_misaligns_placeholders sqrt :
  where_true (map pfrozen (filter (fun p => str_contains "DMX_" (pname p)) two_frozen_model))
    = [0; 1]%nat /\
  (exists r x,
     dmxparse sqrt (mk_fitter two_frozen_model (Some (scalar_cov 1 4))) = Ok r /\
     dmx_verrs r = [None; Some x; None]) /\
  dmxparse sqrt (mk_fitter last_two_frozen_model (Some (scalar_cov 1 4))) = Raise IndexError.
Proof.
  split; [vm_compute; reflexivity|]. split.
  - eexists; eexists. split; [vm_compute; reflexivity | reflexivity].
  - vm_compute. reflexivity.
Qed.

(** ** The covariance request and its shape *)

Lemma leb_total_string a b : String.leb a b = false -> String.leb b a = true.
Proof.
  unfold String.leb. rewrite (String.compare_antisym b a).
  destruct (String.compare a b); simpl; congruence.
Qed.

Definition str_le (a b : string) : Prop := String.leb a b = true.

Lemma insert_string_perm x l : Permutation (insert_string x l) (x :: l).
Proof.
  induction l as [|y ys IH]; simpl; [reflexivity|].
  destruct (String.leb x y); [reflexivity|].
  rewrite IH. apply perm_swap.
Qed.

Lemma insert_string_hd y x l :
  str_le y x -> HdRel str_le y l -> HdRel str_le y (insert_string x l).
Proof.
  intros Hyx Hl. destruct l as [|z zs]; simpl.
  - constructor. exact Hyx.
  - destruct (String.leb x z); constructor; [exact Hyx|]. inversion Hl; assumption.
Qed.

Lemma insert_string_sorted x l : Sorted str_le l -> Sorted str_le (insert_string x l).
Proof.
  induction l as [|y ys IH]; intro Hs; simpl.
  - repeat constructor.
  - destruct (String.leb x y) eqn:E.
    + constructor; [exact Hs | constructor; exact E].
    + apply Sorted_inv in Hs as [Hs Hh]. constructor; [apply IH; exact Hs|].
      apply insert_string_hd; [apply leb_total_string; exact E | exact Hh].
Qed.

Lemma sorted_strings_spec l :
  Sorted str_le (sorted_strings l) /\ Permutation (sorted_strings l) l.
Proof.
  induction l as [|x xs [IHs IHp]]; simpl; [split; constructor|].
  split; [apply insert_string_sorted; exact IHs|].
  rewrite insert_string_perm. apply perm_skip. exact IHp.
Qed.

Lemma cov_correction_shape sqrt cc n :
  (exists c, cov_correction sqrt cc n = Ok c) <-> nrows cc = n /\ ncols cc = n.
Proof.
  split.
  - intros [[me vs] H]. apply cov_correction_diag in H. tauto.
  - intros [Hr Hc]. unfold cov_correction, np_dot. simpl nrows. simpl ncols.
    rewrite Hr, Nat.eqb_refl. cbn [bind]. simpl ncols. rewrite Hc, Nat.eqb_refl.
    eexists. reflexivity.
Qed.

Lemma cov_correction_ValueError sqrt cc n :
  ~ (nrows cc = n /\ ncols cc = n) -> cov_correction sqrt cc n = Raise ValueError.
Proof.
  intro Hs. unfold cov_correction, np_dot. simpl nrows. simpl ncols.
  destruct (Nat.eqb_spec n (nrows cc)) as [Hr|Hr].
  - cbn [bind]. simpl ncols. destruct (Nat.eqb_spec (ncols cc) n) as [Hc|Hc].
    + exfalso. apply Hs. split; congruence.
    + reflexivity.
  - reflexivity.
Qed.

Lemma dmxparse_cov_only_labels sqrt f prov :
  fcov f = Some prov ->
  dmxparse sqrt f =
  dmxparse sqrt (mk_fitter (fmodel f)
                   (Some (fun _ => prov (cov_labels (dmx_epochs (fmodel f)))))).
Proof.
  intro Hcov. unfold dmxparse. simpl fmodel. simpl fcov. rewrite Hcov. reflexivity.
Qed.

Lemma dmxparse_cov_shape_ValueError sqrt f prov rows :
  fcov f = Some prov ->
  dmx_epochs (fmodel f) <> [] ->
  mapM (get_row (fmodel f)) (dmx_epochs (fmodel f)) = Ok rows ->
  let n := List.length (filter (fun row => negb (row_frozen row)) rows) in
  let cc := prov (cov_labels (dmx_epochs (fmodel f))) in
  ~ (nrows cc = n /\ ncols cc = n) ->
  dmxparse sqrt f = Raise ValueError.
Proof.
  intros Hcov Hne Hrows n cc Hs. unfold dmxparse.
  destruct (dmx_epochs (fmodel f)) as [|ep0 eps] eqn:He; [congruence|].
  rewrite Hrows. cbn [bind]. rewrite Hcov.
  rewrite count_fit. subst n cc.
  rewrite (cov_correction_ValueError sqrt _ _ Hs). reflexivity.
Qed.

(** Two fit bins out of three: a provider that keeps the frozen name on
    its axes returns a 3x3 matrix. *)
Definition frozen_middle_model : model :=
  dmx_bin_params "0001" 1 false (1 # 10) 50000 50010 ++
  dmx_bin_params "0002" 2 true (1 # 10) 50010 50020 ++
  dmx_bin_params "0003" 3 false (1 # 10) 50020 50030.

Lemma frozen_fewer_fit rows :
  existsb row_frozen rows = true ->
  (List.length (filter (fun row => negb (row_frozen row)) rows) < List.length rows)%nat.
Proof.
  induction rows as [|row rows IH]; simpl; [discriminate|].
  destruct (row_frozen row); simpl; intro H.
  - pose proof (filter_length_le (fun row => negb (row_frozen row)) rows). lia.
  - specialize (IH H). lia.
Qed.

(** C10: with a covariance provider, [dmxparse] asks for the labels
    ["DMX_" ^ e] of all bins [e] of the model (frozen ones included),
    sorted ascending, and uses nothing else of the provider; the
    projector has the size [n] of the non-frozen bins, and the
    correction succeeds exactly when the returned matrix is [n x n]:
    otherwise, e.g. when the matrix keeps the frozen names on its axes,
    [dmxparse] raises [ValueError]. *)
Theorem dmxparse_cov_labels_and_shape sqrt f prov rows
  (Hcov : fcov f = Some prov)
  (Hne : dmx_epochs (fmodel f) <> [])
  (Hrows : mapM (get_row (fmodel f)) (dmx_epochs (fmodel f)) = Ok rows) :
  let labels := cov_labels (dmx_epochs (fmodel f)) in
  let cc := prov labels in
  let n := List.length (filter (fun row => negb (row_frozen row)) rows) in
  Sorted str_le labels /\
  Permutation labels (map (fun e => "DMX_" ++ e)%string (dmx_epochs (fmodel f))) /\
  List.length labels = List.length rows /\
  dmxparse sqrt f = dmxparse sqrt (mk_fitter (fmodel f) (Some (fun _ => cc))) /\
  nrows (demean n) = n /\ ncols (demean n) = n /\
  ((exists c, cov_correction sqrt cc n = Ok c) <-> nrows cc = n /\ ncols cc = n) /\
  (~ (nrows cc = n /\ ncols cc = n) -> dmxparse sqrt f = Raise ValueError) /\
  (existsb row_frozen rows = true -> nrows cc = List.length rows ->
   dmxparse sqrt f = Raise ValueError).
Proof.
  intros labels cc n.
  destruct (sorted_strings_spec (map (fun e => "DMX_" ++ e)%string (dmx_epochs (fmodel f))))
    as [Hsort Hperm].
  assert (Hshape : ~ (nrows cc = n /\ ncols cc = n) -> dmxparse sqrt f = Raise ValueError)
    by exact (dmxparse_cov_shape_ValueError sqrt f prov rows Hcov Hne Hrows).
  split; [exact Hsort|]. split; [exact Hperm|]. split.
  { unfold labels, cov_labels. rewrite (Permutation_length Hperm), length_map.
    symmetry. exact (mapM_length _ _ _ Hrows). }
  split; [exact (dmxparse_cov_only_labels sqrt f prov Hcov)|].
  split; [reflexivity|]. split; [reflexivity|].
  split; [apply cov_correction_shape|].
  split; [exact Hshape|].
  intros Hfz Hk. apply Hshape. intros [Hr _].
  pose proof (frozen_fewer_fit rows Hfz). fold n in H. lia.
Qed.

Lemma dmxparse_cov_labels_and_shape_witness :
  dmxparse (fun q => q) (mk_fitter frozen_middle_model (Some (scalar_cov 3 1))) = Raise ValueError.
Proof.
  destruct (dmxparse_cov_labels_and_shape (fun q => q)
              (mk_fitter frozen_middle_model (Some (scalar_cov 3 1))) (scalar_cov 3 1) _
              eq_refl ltac:(discriminate) eq_refl)
    as [_ [_ [_ [_ [_ [_ [_ [_ H]]]]]]]].
  apply H; reflexivity.
Defined.

(** * Properties of the numerical helpers *)

(** ** [taylor_horner_deriv] *)

Fixpoint qpow (x : Q) (n : nat) : Q :=
  match n with O => 1 | S n' => x * qpow x n' end.

(** [sum_i l_i * x^(k+i) / (k+i)!]. *)
Fixpoint taylor_sum (x : Q) (k : nat) (l : list Q) : Q :=
  match l with
  | [] => 0
  | c :: r => c * qpow x k / Q_of_nat (fact k) + taylor_sum x (S k) r
  end.

Lemma Q_of_nat_fact_neq0 k : ~ Q_of_nat (fact k) == 0.
Proof.
  unfold Q_of_nat, Qeq. simpl. pose proof (lt_O_fact k). lia.
Qed.

Lemma Q_of_nat_fact_S k : Q_of_nat (fact (S k)) == Q_of_nat (S k) * Q_of_nat (fact k).
Proof.
  unfold Q_of_nat. simpl fact. rewrite Nat2Z.inj_add, Nat2Z.inj_mul, inject_Z_plus, inject_Z_mult.
  rewrite Nat2Z.inj_succ, <- Z.add_1_r, inject_Z_plus. simpl. ring.
Qed.

Lemma horner_fold x l k :
  let st := fold_left (fun (st : Q * Q) coeff =>
                         let '(res, fact) := st in (res * x / fact + coeff, fact - 1))
              (rev l) (0, Q_of_nat (k + List.length l)) in
  snd st == Q_of_nat k /\ fst st * qpow x k / Q_of_nat (fact k) == taylor_sum x k l.
Proof.
  revert k; induction l as [|c r IH]; intro k; cbn [rev List.length].
  - rewrite Nat.add_0_r. cbn [fold_left fst snd taylor_sum]. split; [reflexivity|]. field. apply Q_of_nat_fact_neq0.
  - rewrite fold_left_app. rewrite <- plus_n_Sm.
    destruct (IH (S k)) as [Hs Hf].
    destruct (fold_left _ (rev r) _) as [a b]. cbn [fold_left fst snd taylor_sum] in Hs, Hf |- *.
    split.
    + rewrite Hs. unfold Q_of_nat. rewrite Nat2Z.inj_succ, <- Z.add_1_r, inject_Z_plus. ring.
    + rewrite <- Hf, Hs, Q_of_nat_fact_S. cbn [qpow]. field.
      split; [apply Q_of_nat_fact_neq0 | apply Q_of_nat_S_neq0].
Qed.

(** ** [p_to_f] and [pferrs] *)

Lemma Qinv_div_p p : ~ p == 0 -> 1 / (1 / p) == p.
Proof. intro H. field. exact H. Qed.

Lemma pdd_fixed_point p pd pdd :
  ~ p == 0 ->
  (2 * pd * pd / p ^ 3 - pdd / (p * p) == 0 <-> pdd == 2 * pd * pd / p).
Proof.
  intro Hp. split; intro H.
  - assert (E : pdd == (2 * pd * pd / p ^ 3 - pdd / (p * p)) * (- (p * p)) + 2 * pd * pd / p)
      by (field; exact Hp).
    rewrite E, H. ring.
  - rewrite H. field. exact Hp.
Qed.

(** ** Taylor series, period / frequency conversion *)

(** [taylor_horner_deriv x coeffs d] evaluates [sum_i coeffs[d+i] x^i / i!],
    the [d]-th derivative of the Taylor series [sum_i coeffs[i] x^i / i!]
    (so [0] when [d >= len(coeffs)]); an empty [coeffs] raises
    [IndexError]. *)
Theorem taylor_horner_deriv_sum (x : Q) (d : nat) :
  taylor_horner_deriv x [] d = Raise IndexError /\
  forall c cs, exists v,
    taylor_horner_deriv x (c :: cs) d = Ok v /\ v == taylor_sum x 0 (skipn d (c :: cs)).
Proof.
  split; [reflexivity|]. intros c cs.
  eexists. split; [reflexivity|].
  destruct (horner_fold x (skipn d (c :: cs)) 0) as [_ H].
  assert (E : forall q, q * qpow x 0 / Q_of_nat (fact 0) == q) by (intro q; unfold qpow, Q_of_nat; change (Z.of_nat (fact 0)) with 1%Z; field).
  rewrite E in H. exact H.
Qed.

(** [p_to_f] is its own inverse on a non-zero period: converting [(p, pd)]
    twice gives [(p, pd)] back.  With a second derivative [pdd] the first
    two values come back as well, and [pdd] comes back exactly when
    [pdd = 0] or [pdd <> 2 pd^2 / p]: for [pdd = 2 pd^2 / p <> 0] the
    converted [fdd] is [0], which the [pdd == 0.0] branch maps to [0]. *)
Theorem p_to_f_round_trip p pd pdd (Hp : ~ p == 0) :
  match p_to_f p pd None with
  | [f; fd] => exists p' pd', p_to_f f fd None = [p'; pd'] /\ p' == p /\ pd' == pd
  | _ => False
  end /\
  match p_to_f p pd (Some pdd) with
  | [f; fd; fdd] =>
    exists p' pd' pdd', p_to_f f fd (Some fdd) = [p'; pd'; pdd'] /\ p' == p /\ pd' == pd /\
      (pdd' == pdd <-> pdd == 0 \/ ~ pdd == 2 * pd * pd / p)
  | _ => False
  end.
Proof.
  split.
  - cbn [p_to_f]. do 2 eexists. split; [reflexivity|].
    split; field; exact Hp.
  - unfold p_to_f at 1. do 3 eexists. split; [reflexivity|].
    split; [field; exact Hp|]. split; [field; exact Hp|].
    destruct (Qeq_bool pdd 0) eqn:E0.
    + apply Qeq_bool_iff in E0. rewrite Qeq_bool_refl.
      split; intro H; [left; exact E0 | rewrite E0; reflexivity].
    + assert (N0 : ~ pdd == 0) by (intro C; apply Qeq_bool_iff in C; congruence).
      destruct (Qeq_bool (2 * pd * pd / p ^ 3 - pdd / (p * p)) 0) eqn:E1.
      * apply Qeq_bool_iff in E1. apply (pdd_fixed_point p pd pdd Hp) in E1.
        split; intro H.
        -- exfalso. apply N0. rewrite <- H. reflexivity.
        -- destruct H as [H | H]; contradiction.
      * assert (N1 : ~ pdd == 2 * pd * pd / p).
        { intro C. apply (pdd_fixed_point p pd pdd Hp) in C. apply Qeq_bool_iff in C. congruence. }
        split; intro H; [right; exact N1|]. field. exact Hp.
Qed.

Lemma p_to_f_round_trip_witness :
  ~ (1 : Q) == 0 /\
  match p_to_f 1 1 (Some 2) with
  | [f; fd; fdd] =>
    exists p' pd' pdd', p_to_f f fd (Some fdd) = [p'; pd'; pdd'] /\ p' == 1 /\ pd' == 1 /\
      (pdd' == 2 <-> 2 == 0 \/ ~ 2 == 2 * 1 * 1 / 1)
  | _ => False
  end.
Proof.
  split; [discriminate|].
  exact (proj2 (p_to_f_round_trip 1 1 2 ltac:(discriminate))).
Defined.

(** [pferrs] without derivatives is its own inverse on a non-zero [porf]:
    applied to its own output it gives [(porf, porferr)] back; with
    derivatives its value and value uncertainty are those of the call
    without derivatives and its derivative is that of [p_to_f]. *)
Theorem pferrs_round_trip sqrt porf porferr pdorfd pdorfderr (Hp : ~ porf == 0) :
  match pferrs sqrt porf porferr None with
  | [forp; forperr] =>
    exists y ey, pferrs sqrt forp forperr None = [y; ey] /\ y == porf /\ ey == porferr
  | _ => False
  end /\
  exists fdorpderr,
    pferrs sqrt porf porferr (Some (pdorfd, pdorfderr)) =
    [nth 0 (pferrs sqrt porf porferr None) 0; nth 1 (pferrs sqrt porf porferr None) 0;
     nth 1 (p_to_f porf pdorfd None) 0; fdorpderr].
Proof.
  split.
  - cbn [pferrs]. do 2 eexists. split; [reflexivity|].
    split; field; exact Hp.
  - eexists. reflexivity.
Qed.

Lemma pferrs_round_trip_witness :
  ~ (4 : Q) == 0 /\
  match pferrs (fun q => q) 4 (1 # 10) None with
  | [forp; forperr] =>
    exists y ey, pferrs (fun q => q) forp forperr None = [y; ey] /\ y == 4 /\ ey == 1 # 10
  | _ => False
  end.
Proof.
  split; [discriminate|].
  exact (proj1 (pferrs_round_trip (fun q => q) 4 (1 # 10) 0 0 ltac:(discriminate))).
Defined.

(** ** [weighted_mean] *)

Lemma np_map2_eq op a b :
  List.length a = List.length b ->
  np_map2 op a b = Ok (map (fun '(x, y) => op x y) (combine a b)).
Proof. intro H. unfold np_map2. rewrite H, Nat.eqb_refl. reflexivity. Qed.

Lemma weighted_mean_ok sqrt arr w calcerr sdev :
  List.length arr = List.length w ->
  exists rest, weighted_mean sqrt arr w None calcerr sdev =
    Ok (qsum_list (map (fun '(a, x) => a * x) (combine w arr)) / qsum_list w :: rest).
Proof.
  intro H. unfold weighted_mean. rewrite np_map2_eq by congruence. cbn [bind].
  set (m := qsum_list _ / qsum_list w).
  destruct calcerr, sdev; cbn [bind];
    repeat (rewrite np_map2_eq by (rewrite !length_map; congruence); cbn [bind]);
    eexists; reflexivity.
Qed.

Lemma dot_sub_const w arr m :
  List.length w = List.length arr ->
  qsum_list (map (fun '(a, x) => a * (x - m)) (combine w arr))
  == qsum_list (map (fun '(a, x) => a * x) (combine w arr)) - m * qsum_list w.
Proof.
  revert arr; induction w as [|a w IH]; intros [|x arr] H; simpl in H |- *; try discriminate.
  - ring.
  - rewrite IH by lia. ring.
Qed.

Lemma dot_scale w arr k :
  qsum_list (map (fun '(a, x) => a * x) (combine (map (Qmult k) w) arr))
  == k * qsum_list (map (fun '(a, x) => a * x) (combine w arr)).
Proof.
  revert arr; induction w as [|a w IH]; intros [|x arr]; simpl; try ring.
  rewrite IH. ring.
Qed.

Lemma qsum_list_scale l k : qsum_list (map (Qmult k) l) == k * qsum_list l.
Proof. induction l as [|x l IH]; simpl; [ring | rewrite IH; ring]. Qed.

Lemma dot_repeat c arr :
  qsum_list (map (fun '(a, x) => a * x) (combine (repeat c (List.length arr)) arr))
  == c * qsum_list arr.
Proof. induction arr as [|x arr IH]; simpl; [ring | rewrite IH; ring]. Qed.

Lemma qsum_list_repeat c n : qsum_list (repeat c n) == c * Q_of_nat n.
Proof.
  induction n as [|n IH]; simpl.
  - unfold Q_of_nat. simpl. ring.
  - rewrite IH. unfold Q_of_nat. rewrite Nat2Z.inj_succ, <- Z.add_1_r, inject_Z_plus. simpl. ring.
Qed.

(** [weighted_mean] without [inputmean], on arrays of equal length and a
    non-zero total weight, returns first the weighted mean
    [sum w_i x_i / sum w_i], around which the weighted residuals
    [sum w_i (x_i - wmean)] vanish; scaling all weights by a non-zero
    factor leaves that mean unchanged. *)
Theorem weighted_mean_balance sqrt arr w calcerr sdev
  (Hlen : List.length arr = List.length w) (Hw : ~ qsum_list w == 0) :
  exists wmean rest,
    weighted_mean sqrt arr w None calcerr sdev = Ok (wmean :: rest) /\
    wmean == qsum_list (map (fun '(a, x) => a * x) (combine w arr)) / qsum_list w /\
    qsum_list (map (fun '(a, x) => a * (x - wmean)) (combine w arr)) == 0 /\
    forall k, ~ k == 0 ->
      exists wmean' rest',
        weighted_mean sqrt arr (map (Qmult k) w) None calcerr sdev = Ok (wmean' :: rest') /\
        wmean' == wmean.
Proof.
  destruct (weighted_mean_ok sqrt arr w calcerr sdev Hlen) as [rest H].
  do 2 eexists. split; [exact H|]. split; [reflexivity|]. split.
  - rewrite dot_sub_const by congruence. field. exact Hw.
  - intros k Hk.
    destruct (weighted_mean_ok sqrt arr (map (Qmult k) w) calcerr sdev)
      as [rest' H']; [rewrite length_map; exact Hlen|].
    do 2 eexists. split; [exact H'|].
    rewrite dot_scale, qsum_list_scale. field. split; assumption.
Qed.

Lemma weighted_mean_balance_witness :
  exists wmean rest,
    weighted_mean (fun q => q) [1; 2; 6] [1; 1; 2] None true true = Ok (wmean :: rest) /\
    wmean == 15 # 4.
Proof.
  destruct (weighted_mean_balance (fun q => q) [1; 2; 6] [1; 1; 2] true true eq_refl
              ltac:(vm_compute; discriminate)) as [wmean [rest [H [Hm _]]]].
  exists wmean, rest. split; [exact H|]. rewrite Hm. reflexivity.
Defined.

(** With equal non-zero weights on a non-empty array, [weighted_mean]
    returns the plain arithmetic mean [np.mean(arrin)]. *)
Theorem weighted_mean_equal_weights sqrt arr c calcerr sdev
  (Hc : ~ c == 0) (Hne : arr <> []) :
  exists wmean rest,
    weighted_mean sqrt arr (repeat c (List.length arr)) None calcerr sdev = Ok (wmean :: rest) /\
    wmean == np_mean arr.
Proof.
  destruct (weighted_mean_ok sqrt arr (repeat c (List.length arr)) calcerr sdev)
    as [rest H]; [rewrite repeat_length; reflexivity|].
  do 2 eexists. split; [exact H|].
  rewrite dot_repeat, qsum_list_repeat. unfold np_mean.
  destruct arr as [|x arr]; [congruence|].
  field. split; [apply Q_of_nat_S_neq0 | exact Hc].
Qed.

Lemma weighted_mean_equal_weights_witness :
  exists wmean rest,
    weighted_mean (fun q => q) [1; 2; 6] [5; 5; 5] None false false = Ok (wmean :: rest) /\
    wmean == np_mean [1; 2; 6].
Proof.
  exact (weighted_mean_equal_weights (fun q => q) [1; 2; 6] 5 false false
           ltac:(discriminate) ltac:(discriminate)).
Defined.

(** ** [str.strip] and [interesting_lines] *)

Lemma lstrip_head s :
  match lstrip s with [] => True | c :: _ => is_space c = false end.
Proof.
  induction s as [|c s IH]; simpl; [exact I|].
  destruct (is_space c) eqn:E; [exact IH | exact E].
Qed.

Lemma lstrip_nonspace s :
  match s with [] => True | c :: _ => is_space c = false end -> lstrip s = s.
Proof. destruct s as [|c s]; simpl; [reflexivity|]. intro E. rewrite E. reflexivity. Qed.

Lemma lstrip_idem s : lstrip (lstrip s) = lstrip s.
Proof. apply lstrip_nonspace, lstrip_head. Qed.

Lemma lstrip_app_nonspace l x :
  is_space x = false -> lstrip (l ++ [x]) = lstrip l ++ [x].
Proof.
  intro Hx. induction l as [|c l IH]; simpl.
  - rewrite Hx. reflexivity.
  - destruct (is_space c); [exact IH | reflexivity].
Qed.

Lemma rstrip_cons_nonspace x t :
  is_space x = false -> rstrip (x :: t) = x :: rstrip t.
Proof.
  intro Hx. unfold rstrip. simpl. rewrite lstrip_app_nonspace by exact Hx.
  rewrite rev_app_distr. reflexivity.
Qed.

Lemma rstrip_idem t : rstrip (rstrip t) = rstrip t.
Proof. unfold rstrip. rewrite rev_involutive, lstrip_idem. reflexivity. Qed.

Lemma lstrip_rstrip_lstrip s : lstrip (rstrip (lstrip s)) = rstrip (lstrip s).
Proof.
  pose proof (lstrip_head s) as Hh.
  destruct (lstrip s) as [|x t]; [reflexivity|].
  rewrite rstrip_cons_nonspace by exact Hh. simpl. rewrite Hh. reflexivity.
Qed.

Lemma strip_idem s : strip (strip s) = strip s.
Proof.
  unfold strip. rewrite lstrip_rstrip_lstrip. apply rstrip_idem.
Qed.

Lemma lstrip_split s : exists pre, s = pre ++ lstrip s.
Proof.
  induction s as [|c s [pre IH]]; simpl; [exists []; reflexivity|].
  destruct (is_space c); [exists (c :: pre); simpl; f_equal; exact IH | exists []; reflexivity].
Qed.

Lemma rstrip_split s : exists post, s = rstrip s ++ post.
Proof.
  destruct (lstrip_split (rev s)) as [pre H].
  exists (rev pre). unfold rstrip. rewrite <- rev_app_distr, <- H, rev_involutive. reflexivity.
Qed.

Lemma startswith_app p t : startswith (p ++ t) p = true.
Proof.
  induction p as [|c p IH]; simpl; [reflexivity|]. rewrite Ascii.eqb_refl. exact IH.
Qed.

(** The check of one comment string in [interesting_lines]. *)
Lemma comment_check_spec c :
  (match strip c with [] => true | _ => negb (startswith c (strip c)) end) = true <->
  strip c = [] \/ exists x rest, c = x :: rest /\ is_space x = true.
Proof.
  destruct (strip c) as [|y ys] eqn:Es.
  - split; [left; reflexivity | reflexivity].
  - rewrite negb_true_iff. split.
    + intro H. right. destruct c as [|x rest]; [discriminate|].
      exists x, rest. split; [reflexivity|].
      destruct (is_space x) eqn:Ex; [reflexivity|].
      exfalso. unfold strip in Es. rewrite (lstrip_nonspace (x :: rest)) in Es by exact Ex.
      destruct (rstrip_split (x :: rest)) as [post Hp].
      rewrite Es in Hp. rewrite Hp in H. rewrite startswith_app in H. discriminate.
    + intros [H | [x [rest [-> Hx]]]]; [discriminate|].
      unfold strip in Es. simpl in Es. rewrite Hx in Es.
      pose proof (lstrip_head rest) as Hh.
      destruct (lstrip rest) as [|z zs]; [discriminate|].
      rewrite rstrip_cons_nonspace in Es by exact Hh. injection Es as <- _.
      simpl. destruct (Ascii.eqb z x) eqn:Ezx; [|reflexivity].
      apply Ascii.eqb_eq in Ezx. subst. congruence.
Qed.

Lemma filter_all {A} (p : A -> bool) l :
  (forall x, In x l -> p x = true) -> filter p l = l.
Proof.
  induction l as [|x l IH]; intro H; simpl; [reflexivity|].
  rewrite (H x (or_introl eq_refl)). f_equal. apply IH. intros y Hy. apply H. right. exact Hy.
Qed.

Lemma map_id_in {A} (f : A -> A) l : (forall x, In x l -> f x = x) -> map f l = l.
Proof.
  induction l as [|x l IH]; intro H; simpl; [reflexivity|].
  rewrite (H x (or_introl eq_refl)). f_equal. apply IH. intros y Hy. apply H. right. exact Hy.
Qed.

(** ** [interesting_lines] *)

(** [interesting_lines] raises [ValueError] exactly when one of the
    comment strings is blank or starts with whitespace, whatever the
    lines. *)
Theorem interesting_lines_ValueError lines comments :
  interesting_lines lines comments = Raise ValueError <->
  exists c, In c (comment_tuple comments) /\
    (strip c = [] \/ exists x rest, c = x :: rest /\ is_space x = true).
Proof.
  unfold interesting_lines.
  destruct (existsb _ (comment_tuple comments)) eqn:E.
  - apply existsb_exists in E as [c [Hin Hc]].
    split; [intros _ | reflexivity].
    exists c. split; [exact Hin|]. apply comment_check_spec. exact Hc.
  - split; [discriminate|]. intros [c [Hin Hc]].
    apply comment_check_spec in Hc.
    rewrite <- not_true_iff_false in E. exfalso. apply E.
    apply existsb_exists. exists c. split; [exact Hin | exact Hc].
Qed.

(** Every line yielded by [interesting_lines] is stripped, non-empty and
    starts with none of the comment strings, and filtering the yielded
    lines again with the same comments yields them unchanged. *)
Theorem interesting_lines_output lines comments out
  (H : interesting_lines lines comments = Ok out) :
  (forall ln, In ln out ->
     strip ln = ln /\ ln <> [] /\
     forall c, In c (comment_tuple comments) -> startswith ln c = false) /\
  interesting_lines out comments = Ok out.
Proof.
  unfold interesting_lines in H |- *.
  destruct (existsb _ (comment_tuple comments)) eqn:E; [discriminate|].
  injection H as <-.
  assert (P : forall ln, In ln (filter (fun ln => match ln with
                                                  | [] => false
                                                  | _ => negb (existsb (startswith ln)
                                                                  (comment_tuple comments))
                                                  end) (map strip lines)) ->
              strip ln = ln /\ ln <> [] /\
              forall c, In c (comment_tuple comments) -> startswith ln c = false).
  { intros ln Hin. apply filter_In in Hin as [Hm Hp].
    apply in_map_iff in Hm as [l0 [<- _]].
    split; [apply strip_idem|].
    destruct (strip l0) as [|y ys]; [discriminate|].
    split; [discriminate|]. intros c Hc.
    apply negb_true_iff in Hp.
    destruct (startswith (y :: ys) c) eqn:Es; [|reflexivity].
    assert (T : existsb (startswith (y :: ys)) (comment_tuple comments) = true)
      by (apply existsb_exists; exists c; split; assumption).
    congruence. }
  split; [exact P|].
  f_equal. rewrite map_id_in by (intros x Hx; apply (P x Hx)).
  apply filter_all. intros ln Hin. apply filter_In in Hin as [_ Hp]. exact Hp.
Qed.

Definition sample_lines : list pystr :=
  [list_ascii_of_string "  # header"; list_ascii_of_string " PSR J0000+0000 ";
   []; list_ascii_of_string "F0 1.0"].

Lemma interesting_lines_output_witness :
  interesting_lines sample_lines (OneComment (list_ascii_of_string "#"))
    = Ok [list_ascii_of_string "PSR J0000+0000"; list_ascii_of_string "F0 1.0"] /\
  interesting_lines [list_ascii_of_string "PSR J0000+0000"; list_ascii_of_string "F0 1.0"]
    (OneComment (list_ascii_of_string "#"))
    = Ok [list_ascii_of_string "PSR J0000+0000"; list_ascii_of_string "F0 1.0"].
Proof.
  assert (H : interesting_lines sample_lines (OneComment (list_ascii_of_string "#"))
              = Ok [list_ascii_of_string "PSR J0000+0000"; list_ascii_of_string "F0 1.0"])
    by (vm_compute; reflexivity).
  split; [exact H | exact (proj2 (interesting_lines_output _ _ _ H))].
Defined.

(** ** The matcher behind [split_prefixed_name] *)

Definition newline : ascii := ascii_of_nat 10.

Definition atom_cls (a : atom) : ascii -> bool :=
  match a with One c | Star c | Plus c => c end.

(** The text an atom may take. *)
Definition atom_ok (a : atom) (p : pystr) : Prop :=
  match a with
  | One cls => exists c, p = [c] /\ cls c = true
  | Star cls => forallb cls p = true
  | Plus cls => p <> [] /\ forallb cls p = true
  end.

Lemma atom_ok_cls a p : atom_ok a p -> forallb (atom_cls a) p = true.
Proof.
  destruct a as [c|c|c]; simpl.
  - intros [x [-> Hx]]. simpl. rewrite Hx. reflexivity.
  - tauto.
  - tauto.
Qed.

Lemma run_len_firstn cls s j : (j <= run_len cls s)%nat -> forallb cls (firstn j s) = true.
Proof.
  revert j; induction s as [|c s IH]; intros [|j] H; simpl in *; try reflexivity.
  destruct (cls c) eqn:E; [|lia]. simpl. apply IH. lia.
Qed.

Lemma run_len_le cls s : (run_len cls s <= List.length s)%nat.
Proof.
  induction s as [|c s IH]; simpl; [lia|]. destruct (cls c); lia.
Qed.

Lemma try_down_eq k min s cont :
  try_down k min s cont =
  if Nat.ltb k min then None else
  match cont (skipn k s) with
  | Some ps => Some (firstn k s :: ps)
  | None => match k with O => None | S k' => try_down k' min s cont end
  end.
Proof. destruct k; reflexivity. Qed.

Lemma try_down_sound k min s cont ps :
  try_down k min s cont = Some ps ->
  exists j ps', ps = firstn j s :: ps' /\ (min <= j <= k)%nat /\ cont (skipn j s) = Some ps'.
Proof.
  induction k as [|k IH]; rewrite try_down_eq; intro H.
  - destruct (Nat.ltb 0 min) eqn:E; [discriminate|].
    apply Nat.ltb_ge in E.
    destruct (cont (skipn 0 s)) eqn:Ec; [|discriminate]. injection H as <-.
    exists 0%nat, l. split; [reflexivity|]. split; [lia | exact Ec].
  - destruct (Nat.ltb (S k) min) eqn:E; [discriminate|].
    apply Nat.ltb_ge in E.
    destruct (cont (skipn (S k) s)) eqn:Ec.
    + injection H as <-. exists (S k), l. split; [reflexivity|]. split; [lia | exact Ec].
    + destruct (IH H) as [j [ps' [Hps [Hj Hc]]]].
      exists j, ps'. split; [exact Hps|]. split; [lia | exact Hc].
Qed.

Lemma try_down_top k min s cont ps :
  (min <= k)%nat -> cont (skipn k s) = Some ps -> try_down k min s cont = Some (firstn k s :: ps).
Proof.
  intros Hk Hc. rewrite try_down_eq.
  destruct (Nat.ltb_ge k min) as [_ E]. rewrite (E Hk), Hc. reflexivity.
Qed.

Lemma at_end_spec s : at_end s = true -> s = [] \/ s = [newline].
Proof.
  destruct s as [|c [|d s]]; simpl; intro H; try discriminate.
  - left. reflexivity.
  - right. apply Ascii.eqb_eq in H. subst. reflexivity.
Qed.

Lemma match_atoms_sound atoms s ps :
  match_atoms atoms s = Some ps ->
  Forall2 atom_ok atoms ps /\
  exists rest, at_end rest = true /\ s = List.concat ps ++ rest.
Proof.
  revert s ps; induction atoms as [|a atoms IH]; intros s ps H; simpl in H.
  - destruct (at_end s) eqn:E; [|discriminate]. injection H as <-.
    split; [constructor|]. exists s. split; [exact E | reflexivity].
  - destruct a as [cls|cls|cls].
    + destruct s as [|c s]; [discriminate|].
      destruct (cls c) eqn:Ec; [|discriminate].
      destruct (match_atoms atoms s) as [ps'|] eqn:Em; [|discriminate].
      simpl in H. injection H as <-.
      destruct (IH s ps' Em) as [HF [rest [Hr Hs]]].
      split.
      * constructor; [exists c; split; [reflexivity | exact Ec] | exact HF].
      * exists rest. split; [exact Hr|]. simpl. rewrite Hs. reflexivity.
    + apply try_down_sound in H as [j [ps' [-> [Hj Hc]]]].
      destruct (IH _ _ Hc) as [HF [rest [Hr Hs]]].
      split.
      * constructor; [simpl; apply run_len_firstn; lia | exact HF].
      * exists rest. split; [exact Hr|]. simpl. rewrite <- app_assoc, <- Hs.
        symmetry. apply firstn_skipn.
    + apply try_down_sound in H as [j [ps' [-> [Hj Hc]]]].
      destruct (IH _ _ Hc) as [HF [rest [Hr Hs]]].
      split.
      * constructor; [|exact HF]. simpl. split; [|apply run_len_firstn; lia].
        intro E. pose proof (run_len_le cls s).
        assert (L : List.length (firstn j s) = j) by (apply firstn_length_le; lia).
        rewrite E in L. simpl in L. lia.
      * exists rest. split; [exact Hr|]. simpl. rewrite <- app_assoc, <- Hs.
        symmetry. apply firstn_skipn.
Qed.

Lemma re_groups_sound g1 cls name p i :
  re_groups (g1, [Plus cls]) name = Some (p, i) ->
  exists ps1, Forall2 atom_ok g1 ps1 /\ p = List.concat ps1 /\
    i <> [] /\ forallb cls i = true /\
    exists rest, at_end rest = true /\ name = p ++ i ++ rest.
Proof.
  unfold re_groups. cbn [fst snd].
  destruct (match_atoms (g1 ++ [Plus cls]) name) as [ps|] eqn:Em; [|discriminate].
  intro H. injection H as <- <-.
  apply match_atoms_sound in Em as [HF [rest [Hr Hn]]].
  apply Forall2_app_inv_l in HF as [ps1 [ps2 [H1 [H2 ->]]]].
  inversion H2 as [|a d a' ds Hd Hds]; subst. inversion Hds; subst.
  pose proof (Forall2_length H1) as Hl.
  rewrite Hl, firstn_app, skipn_app, Nat.sub_diag, firstn_all, skipn_all.
  simpl. rewrite !app_nil_r.
  destruct Hd as [Hne Hall].
  exists ps1. split; [exact H1|]. split; [reflexivity|]. split; [exact Hne|].
  split; [exact Hall|]. exists rest. split; [exact Hr|].
  rewrite concat_app. simpl. rewrite app_nil_r, app_assoc. reflexivity.
Qed.

Lemma alpha_not_digit c : is_alpha c = true -> is_digit c = false.
Proof.
  unfold is_alpha, is_digit. set (n := nat_of_ascii c). intro H.
  destruct (48 <=? n)%nat eqn:E1; destruct (n <=? 57)%nat eqn:E2; try reflexivity.
  apply Nat.leb_le in E1. apply Nat.leb_le in E2.
  apply orb_true_iff in H as [H|H]; apply andb_true_iff in H as [H3 H4];
    apply Nat.leb_le in H3; apply Nat.leb_le in H4; lia.
Qed.

Lemma forallb_last (cls : ascii -> bool) l x : forallb cls (l ++ [x]) = true -> cls x = true.
Proof. rewrite forallb_app. simpl. rewrite andb_true_r. intros H. apply andb_true_iff in H. tauto. Qed.

Ltac inv_F2 :=
  repeat match goal with
  | H : Forall2 _ (_ :: _) _ |- _ => inversion H; subst; clear H
  | H : Forall2 _ [] _ |- _ => inversion H; subst; clear H
  end.

Lemma Forall2_in_r {A B} (R : A -> B -> Prop) l1 l2 y :
  Forall2 R l1 l2 -> In y l2 -> exists x, In x l1 /\ R x y.
Proof.
  induction 1 as [|x y' l1 l2 Hxy HF IH]; simpl; [tauto|].
  intros [<- | Hin]; [exists x; split; [left; reflexivity | exact Hxy]|].
  destruct (IH Hin) as [x' [Hx' Hr]]. exists x'. split; [right; exact Hx' | exact Hr].
Qed.

(** Every character taken by a match belongs to one of the atoms'
    classes. *)
Lemma match_atoms_chars atoms s ps (P : ascii -> Prop) :
  match_atoms atoms s = Some ps ->
  (forall a c, In a atoms -> atom_cls a c = true -> P c) ->
  forall c, In c s -> P c \/ c = newline.
Proof.
  intros Hm Hcls c Hc.
  apply match_atoms_sound in Hm as [HF [rest [Hr ->]]].
  apply in_app_or in Hc as [Hc | Hc].
  - left. apply in_concat in Hc as [q [Hq Hcq]].
    destruct (Forall2_in_r _ _ _ _ HF Hq) as [a [Ha Hok]].
    apply atom_ok_cls in Hok. rewrite forallb_forall in Hok.
    exact (Hcls a c Ha (Hok c Hcq)).
  - right. apply at_end_spec in Hr as [-> | ->]; [destruct Hc | destruct Hc as [<- | []]].
    reflexivity.
Qed.

Lemma digits_letters_no_switch L D X y z Y :
  forallb is_alpha L = true -> forallb is_digit D = true ->
  L ++ D = X ++ y :: z :: Y -> is_digit y = true -> is_alpha z = true -> False.
Proof.
  intros HL HD E Hy Hz.
  apply app_eq_app in E as [l [[E1 E2] | [E1 E2]]].
  - destruct l as [|w l].
    + simpl in E2. subst D. simpl in HD. apply andb_true_iff in HD as [_ HD].
      apply andb_true_iff in HD as [HD _]. apply alpha_not_digit in Hz. congruence.
    + injection E2 as <- _. subst L. rewrite forallb_app in HL.
      apply andb_true_iff in HL as [_ HL]. simpl in HL. apply andb_true_iff in HL as [HL _].
      apply alpha_not_digit in HL. congruence.
  - subst D. rewrite forallb_app in HD. apply andb_true_iff in HD as [_ HD].
    simpl in HD. apply andb_true_iff in HD as [_ HD]. apply andb_true_iff in HD as [HD _].
    apply alpha_not_digit in Hz. congruence.
Qed.

Lemma run_len_all cls l : forallb cls l = true -> run_len cls l = List.length l.
Proof.
  induction l as [|c l IH]; simpl; [reflexivity|].
  intro H. apply andb_true_iff in H as [H1 H2]. rewrite H1, IH by exact H2. reflexivity.
Qed.

Lemma run_len_app cls l x r :
  forallb cls l = true -> cls x = false -> run_len cls (l ++ x :: r) = List.length l.
Proof.
  induction l as [|c l IH]; simpl; intros H Hx.
  - rewrite Hx. reflexivity.
  - apply andb_true_iff in H as [H1 H2]. rewrite H1, IH by assumption. reflexivity.
Qed.

Lemma match_plus_all cls D :
  D <> [] -> forallb cls D = true -> match_atoms [Plus cls] D = Some [D].
Proof.
  intros HD Hall.
  change (match_atoms [Plus cls] D) with (try_down (run_len cls D) 1 D (match_atoms [])).
  rewrite run_len_all by exact Hall.
  rewrite (try_down_top (List.length D) 1 D (match_atoms []) []).
  - rewrite firstn_all. reflexivity.
  - destruct D; [congruence | simpl; lia].
  - rewrite skipn_all. reflexivity.
Qed.

Lemma is_alnum_alpha c : is_alpha c = true -> is_alnum c = true.
Proof. unfold is_alnum. intros ->. reflexivity. Qed.

Lemma is_alnum_digit c : is_digit c = true -> is_alnum c = true.
Proof. unfold is_alnum. intros ->. apply orb_true_r. Qed.

Lemma digit_not_alpha c : is_digit c = true -> is_alpha c = false.
Proof.
  intro H. destruct (is_alpha c) eqn:E; [|reflexivity].
  apply alpha_not_digit in E. congruence.
Qed.

Lemma last_atom_nondigit g a ps :
  Forall2 atom_ok (g ++ [a]) ps ->
  (forall c, atom_cls a c = true -> is_digit c = false) ->
  match a with Star _ => False | _ => True end ->
  exists p' c, List.concat ps = p' ++ [c] /\ is_digit c = false.
Proof.
  intros HF Hcls Ha.
  apply Forall2_app_inv_l in HF as [ps1 [ps2 [_ [H2 ->]]]].
  inversion H2 as [|a' q a'' r Hq Hr]; subst. inversion Hr; subst.
  assert (Hne : q <> []) by (destruct a as [c|c|c]; simpl in Hq;
                             [destruct Hq as [x [-> _]]; discriminate | contradiction | tauto]).
  destruct (exists_last Hne) as [q' [z ->]].
  apply atom_ok_cls in Hq. apply forallb_last in Hq.
  exists (List.concat ps1 ++ q'), z. split.
  - rewrite concat_app. simpl. rewrite app_nil_r, app_assoc. reflexivity.
  - apply Hcls. exact Hq.
Qed.

(** What [split_prefixed_name] returns, read off its three patterns. *)
Lemma split_parts name p i v :
  split_prefixed_name name = Ok (p, i, v) ->
  (name = p ++ i \/ name = p ++ i ++ [newline]) /\
  i <> [] /\ forallb is_digit i = true /\ v = int_of_digits i /\
  exists p' c, p = p' ++ [c] /\ is_digit c = false.
Proof.
  unfold split_prefixed_name. intro H.
  destruct (first_match prefix_pattern name) as [[pp ii]|] eqn:Ef; [|discriminate].
  injection H as <- <- <-.
  assert (G : exists g1, re_groups (g1, [Plus is_digit]) name = Some (pp, ii) /\
                (forall ps1, Forall2 atom_ok g1 ps1 ->
                   exists p' c, List.concat ps1 = p' ++ [c] /\ is_digit c = false)).
  { unfold prefix_pattern in Ef. cbn [first_match] in Ef.
    destruct (re_groups ([Star is_alpha; Plus is_digit; Plus is_alpha], [Plus is_digit]) name)
      eqn:E1.
    - injection Ef as ->. eexists. split; [exact E1|]. intros ps1 HF.
      apply (last_atom_nondigit [Star is_alpha; Plus is_digit] (Plus is_alpha)); [exact HF | | exact I].
      apply alpha_not_digit.
    - destruct (re_groups ([Plus is_alpha], [Plus is_digit]) name) eqn:E2.
      + injection Ef as ->. eexists. split; [exact E2|]. intros ps1 HF.
        apply (last_atom_nondigit [] (Plus is_alpha)); [exact HF | | exact I].
        apply alpha_not_digit.
      + destruct (re_groups ([Plus is_alnum; One (fun c => Ascii.eqb c underscore)],
                             [Plus is_digit]) name) eqn:E3; [|discriminate].
        injection Ef as ->. eexists. split; [exact E3|]. intros ps1 HF.
        apply (last_atom_nondigit [Plus is_alnum] (One (fun c => Ascii.eqb c underscore)));
          [exact HF | | exact I].
        intros c Hc. simpl in Hc. apply Ascii.eqb_eq in Hc. subst. reflexivity. }
  destruct G as [g1 [Eg Hlast]].
  apply re_groups_sound in Eg as [ps1 [HF [-> [Hne [Hall [rest [Hr Hn]]]]]]].
  split.
  - apply at_end_spec in Hr as [-> | ->]; [left; rewrite app_nil_r in Hn; exact Hn | right; exact Hn].
  - split; [exact Hne|]. split; [exact Hall|]. split; [reflexivity|]. exact (Hlast ps1 HF).
Qed.

Lemma split_raises_PrefixError name e :
  split_prefixed_name name = Raise e -> e = PrefixError.
Proof.
  unfold split_prefixed_name. destruct (first_match _ _) as [[? ?]|]; congruence.
Qed.

Lemma alnum_atoms_chars (atoms : list atom) s ps :
  (forall a c, In a atoms -> atom_cls a c = true -> is_alnum c = true) ->
  match_atoms atoms s = Some ps ->
  forall c, In c s -> is_alnum c = true \/ c = newline.
Proof. intros Hcls Hm. exact (match_atoms_chars atoms s ps _ Hm Hcls). Qed.

Lemma re_groups_no_underscore g1 g2 P D :
  (forall a c, In a (g1 ++ g2) -> atom_cls a c = true -> is_alnum c = true) ->
  re_groups (g1, g2) (P ++ underscore :: D) = None.
Proof.
  intro Hcls. unfold re_groups. cbn [fst snd].
  destruct (match_atoms (g1 ++ g2) (P ++ underscore :: D)) as [ps|] eqn:Em; [|reflexivity].
  exfalso. destruct (alnum_atoms_chars _ _ _ Hcls Em underscore) as [C|C].
  - apply in_elt.
  - vm_compute in C. discriminate.
  - unfold underscore, newline in C. vm_compute in C. discriminate.
Qed.

(** ** [split_prefixed_name] *)

(** On success [split_prefixed_name(name)] returns [(prefix, index,
    int(index))] with [name = prefix + index] (or [prefix + index + "\n"],
    as [$] also matches before a final newline), [index] a non-empty run
    of digits, and [prefix] ending in a non-digit, so that [index] is the
    whole trailing digit run of the name. *)
Theorem split_prefixed_name_parts name p i v
  (H : split_prefixed_name name = Ok (p, i, v)) :
  (name = p ++ i \/ name = p ++ i ++ [newline]) /\
  i <> [] /\ forallb is_digit i = true /\ v = int_of_digits i /\
  exists p' c, p = p' ++ [c] /\ is_digit c = false.
Proof. exact (split_parts name p i v H). Qed.

Lemma split_prefixed_name_parts_witness :
  split_prefixed_name (list_ascii_of_string "DMX_0123") =
    Ok (list_ascii_of_string "DMX_", list_ascii_of_string "0123", 123%Z) /\
  list_ascii_of_string "DMX_0123" =
    list_ascii_of_string "DMX_" ++ list_ascii_of_string "0123".
Proof.
  assert (H : split_prefixed_name (list_ascii_of_string "DMX_0123") =
              Ok (list_ascii_of_string "DMX_", list_ascii_of_string "0123", 123%Z))
    by (vm_compute; reflexivity).
  split; [exact H|].
  destruct (split_prefixed_name_parts _ _ _ _ H) as [[E | E] _]; [exact E|].
  vm_compute in E. discriminate.
Defined.

(** A name that does not end in a digit (before an optional final
    newline), such as [PEPOCH], makes [split_prefixed_name] raise
    [PrefixError]. *)
Theorem split_prefixed_name_PrefixError name
  (H1 : forall s c, name = s ++ [c] -> is_digit c = false)
  (H2 : forall s c, name = s ++ [c; newline] -> is_digit c = false) :
  split_prefixed_name name = Raise PrefixError.
Proof.
  destruct (split_prefixed_name name) as [[[p i] v]|e] eqn:E.
  - exfalso. apply split_parts in E as [Hn [Hne [Hall _]]].
    destruct (exists_last Hne) as [i' [d ->]].
    pose proof (forallb_last _ _ _ Hall) as Hd.
    destruct Hn as [Hn | Hn].
    + rewrite (H1 (p ++ i') d) in Hd; [discriminate|]. rewrite Hn, app_assoc. reflexivity.
    + rewrite (H2 (p ++ i') d) in Hd; [discriminate|]. rewrite Hn, <- !app_assoc. reflexivity.
  - apply split_raises_PrefixError in E. subst. reflexivity.
Qed.

Lemma split_prefixed_name_PrefixError_witness :
  split_prefixed_name (list_ascii_of_string "PEPOCH") = Raise PrefixError.
Proof.
  apply split_prefixed_name_PrefixError.
  - intros s c E.
    change (list_ascii_of_string "PEPOCH") with
      (["P"; "E"; "P"; "O"; "C"]%char ++ ["H"%char]) in E.
    apply app_inj_tail in E as [_ <-]. reflexivity.
  - intros s c E. exfalso.
    change (list_ascii_of_string "PEPOCH") with
      (["P"; "E"; "P"; "O"; "C"]%char ++ ["H"%char]) in E.
    change [c; newline] with ([c] ++ [newline]) in E.
    rewrite app_assoc in E. apply app_inj_tail in E as [_ E].
    unfold newline in E. vm_compute in E. discriminate.
Defined.

(** For an ASCII alphanumeric prefix [P] and a digit string [D] (both
    non-empty), [split_prefixed_name(P + "_" + D)] is
    [(P + "_", D, int(D))]: the form of [DMX_0001], [DMXR1_0001] and the
    like. *)
Theorem split_prefixed_name_underscore P D
  (HP : P <> []) (HPa : forallb is_alnum P = true)
  (HD : D <> []) (HDd : forallb is_digit D = true) :
  split_prefixed_name (P ++ underscore :: D) = Ok (P ++ [underscore], D, int_of_digits D).
Proof.
  unfold split_prefixed_name, prefix_pattern. cbn [first_match].
  rewrite re_groups_no_underscore.
  2: { simpl. intros a c [<- | [<- | [<- | [<- | []]]]]; simpl;
       auto using is_alnum_alpha, is_alnum_digit. }
  rewrite re_groups_no_underscore.
  2: { simpl. intros a c [<- | [<- | []]]; simpl; auto using is_alnum_alpha, is_alnum_digit. }
  assert (E : match_atoms ([Plus is_alnum; One (fun c => Ascii.eqb c underscore)] ++ [Plus is_digit])
                (P ++ underscore :: D) = Some [P; [underscore]; D]).
  { change (match_atoms ([Plus is_alnum; One (fun c => Ascii.eqb c underscore)] ++ [Plus is_digit])
              (P ++ underscore :: D))
      with (try_down (run_len is_alnum (P ++ underscore :: D)) 1 (P ++ underscore :: D)
              (match_atoms [One (fun c => Ascii.eqb c underscore); Plus is_digit])).
    rewrite run_len_app by (exact HPa || reflexivity).
    rewrite (try_down_top _ _ _ _ [[underscore]; D]).
    - rewrite firstn_app, Nat.sub_diag, firstn_all. simpl. rewrite app_nil_r. reflexivity.
    - destruct P; [congruence | simpl; lia].
    - rewrite skipn_app, Nat.sub_diag, skipn_all. cbn [app skipn].
      change (match_atoms [One (fun c => Ascii.eqb c underscore); Plus is_digit]
                (underscore :: D))
        with (if Ascii.eqb underscore underscore
              then option_map (cons [underscore]) (match_atoms [Plus is_digit] D) else None).
      rewrite Ascii.eqb_refl, match_plus_all by assumption. reflexivity. }
  unfold re_groups. cbn [fst snd]. rewrite E. simpl. rewrite !app_nil_r. reflexivity.
Qed.

Lemma split_prefixed_name_underscore_witness :
  split_prefixed_name (list_ascii_of_string "DMXR1" ++ underscore :: list_ascii_of_string "0007")
  = Ok (list_ascii_of_string "DMXR1" ++ [underscore], list_ascii_of_string "0007",
        int_of_digits (list_ascii_of_string "0007")).
Proof.
  apply split_prefixed_name_underscore; (discriminate || reflexivity).
Defined.

(** For non-empty [L] of ASCII letters and [D] of digits,
    [split_prefixed_name(L + D)] is [(L, D, int(D))]: the form of [F12]. *)
Theorem split_prefixed_name_letters L D
  (HL : L <> []) (HLa : forallb is_alpha L = true)
  (HD : D <> []) (HDd : forallb is_digit D = true) :
  split_prefixed_name (L ++ D) = Ok (L, D, int_of_digits D).
Proof.
  unfold split_prefixed_name, prefix_pattern. cbn [first_match].
  destruct (re_groups ([Star is_alpha; Plus is_digit; Plus is_alpha], [Plus is_digit]) (L ++ D))
    as [[x y]|] eqn:E1.
  - exfalso. apply re_groups_sound in E1 as [ps1 [HF [Hx [_ [_ [rest [_ Hn]]]]]]].
    inversion HF as [|a1 q1 g1 r1 Ha HF1]; subst. inversion HF1 as [|a2 q2 g2 r2 Hb HF2]; subst.
    inversion HF2 as [|a3 q3 g3 r3 Hc HF3]; subst. inversion HF3; subst.
    destruct Hb as [Hbne Hball]. destruct Hc as [Hcne Hcall].
    destruct (exists_last Hbne) as [b' [yd ->]].
    destruct q3 as [|z c']; [congruence|].
    apply (digits_letters_no_switch L D (q1 ++ b') yd z (c' ++ y ++ rest)); try assumption.
    + rewrite Hn. simpl. rewrite app_nil_r, <- !app_assoc. reflexivity.
    + exact (forallb_last _ _ _ Hball).
    + simpl in Hcall. apply andb_true_iff in Hcall. tauto.
  - assert (E : match_atoms ([Plus is_alpha] ++ [Plus is_digit]) (L ++ D) = Some [L; D]).
    { change (match_atoms ([Plus is_alpha] ++ [Plus is_digit]) (L ++ D))
        with (try_down (run_len is_alpha (L ++ D)) 1 (L ++ D) (match_atoms [Plus is_digit])).
      destruct D as [|d D']; [congruence|].
      rewrite run_len_app; [| exact HLa |].
      2: { apply digit_not_alpha. simpl in HDd. apply andb_true_iff in HDd. tauto. }
      rewrite (try_down_top _ _ _ _ [d :: D']).
      - rewrite firstn_app, Nat.sub_diag, firstn_all. simpl. rewrite app_nil_r. reflexivity.
      - destruct L; [congruence | simpl; lia].
      - rewrite skipn_app, Nat.sub_diag, skipn_all. cbn [app skipn].
        apply match_plus_all; [discriminate | exact HDd]. }
    unfold re_groups at 1. cbn [fst snd]. rewrite E. simpl. rewrite !app_nil_r. reflexivity.
Qed.

Lemma split_prefixed_name_letters_witness :
  split_prefixed_name (list_ascii_of_string "F" ++ list_ascii_of_string "12")
  = Ok (list_ascii_of_string "F", list_ascii_of_string "12", 12%Z).
Proof.
  exact (split_prefixed_name_letters (list_ascii_of_string "F") (list_ascii_of_string "12")
           ltac:(discriminate) eq_refl ltac:(discriminate) eq_refl).
Defined.

(** ** [PosVel] *)

Lemma new_PosVel_Ok p v o r u :
  new_PosVel p v o r = Ok u ->
  u = mk_PosVel p v o r /\ List.length p = 3%nat /\ List.length v = 3%nat /\ is_None o = is_None r.
Proof.
  unfold new_PosVel.
  destruct (Nat.eqb_spec (List.length p) 3); [|discriminate].
  destruct (Nat.eqb_spec (List.length v) 3); [|discriminate].
  destruct o, r; simpl; intro H; try discriminate; injection H as <-; auto.
Qed.

Lemma new_PosVel_valid p v o r :
  List.length p = 3%nat -> List.length v = 3%nat -> is_None o = is_None r ->
  new_PosVel p v o r = Ok (mk_PosVel p v o r).
Proof.
  intros Hp Hv Ho. unfold new_PosVel. rewrite Hp, Hv. simpl.
  rewrite Ho. destruct (is_None r); reflexivity.
Qed.

Lemma vec_add_length a b :
  List.length a = 3%nat -> List.length b = 3%nat -> List.length (vec_add a b) = 3%nat.
Proof.
  intros Ha Hb. unfold vec_add. rewrite length_map, length_combine, Ha, Hb. reflexivity.
Qed.

Lemma Qopp_Qopp_eq x : Qopp (Qopp x) = x.
Proof. destruct x as [n d]. unfold Qopp. simpl. rewrite Z.opp_involutive. reflexivity. Qed.

Lemma map_Qopp_Qopp l : map Qopp (map Qopp l) = l.
Proof.
  rewrite map_map. rewrite (map_ext _ (fun x => x)) by exact Qopp_Qopp_eq. apply map_id.
Qed.

Lemma add_labelled pu vu pv vv a b c d u v :
  new_PosVel pu vu (Some b) (Some a) = Ok u ->
  new_PosVel pv vv (Some d) (Some c) = Ok v ->
  (b = c -> posvel_add u v =
     Ok (mk_PosVel (vec_add pu pv) (vec_add vu vv) (Some d) (Some a))) /\
  (b <> c -> a = d -> posvel_add u v =
     Ok (mk_PosVel (vec_add pu pv) (vec_add vu vv) (Some b) (Some c))) /\
  (b <> c -> a <> d -> posvel_add u v = Raise ValueError).
Proof.
  intros Hu Hv.
  apply new_PosVel_Ok in Hu as [-> [Hpu [Hvu _]]].
  apply new_PosVel_Ok in Hv as [-> [Hpv [Hvv _]]].
  unfold posvel_add, has_labels. cbn [obj origin pos vel is_None negb andb opt_eqb bind].
  repeat split; intros.
  - subst. rewrite String.eqb_refl. apply new_PosVel_valid; auto using vec_add_length.
  - apply String.eqb_neq in H. rewrite H. subst. rewrite String.eqb_refl.
    apply new_PosVel_valid; auto using vec_add_length.
  - apply String.eqb_neq in H. apply String.eqb_neq in H0. rewrite H, H0. reflexivity.
Qed.

(** [-(-x)] gives back [x]: negating a valid [PosVel] succeeds, negates
    [pos] and [vel] and swaps [obj] and [origin], and negating again
    restores the original object. *)
Theorem posvel_neg_involutive p v o r u (H : new_PosVel p v o r = Ok u) :
  exists n, posvel_neg u = Ok n /\
    pos n = map Qopp p /\ vel n = map Qopp v /\ obj n = r /\ origin n = o /\
    posvel_neg n = Ok u.
Proof.
  apply new_PosVel_Ok in H as [-> [Hp [Hv Ho]]].
  unfold posvel_neg. cbn [pos vel obj origin].
  rewrite new_PosVel_valid by (rewrite ?length_map; auto).
  eexists. repeat split.
  cbn [pos vel obj origin]. rewrite !map_Qopp_Qopp.
  apply new_PosVel_valid; auto.
Qed.

Lemma posvel_neg_involutive_witness :
  exists n, posvel_neg (mk_PosVel [1; 2; 3] [4; 5; 6] (Some "earth"%string) (Some "ssb"%string))
    = Ok n /\
    pos n = map Qopp [1; 2; 3] /\ vel n = map Qopp [4; 5; 6] /\
    obj n = Some "ssb"%string /\ origin n = Some "earth"%string /\
    posvel_neg n = Ok (mk_PosVel [1; 2; 3] [4; 5; 6] (Some "earth"%string) (Some "ssb"%string)).
Proof.
  exact (posvel_neg_involutive [1; 2; 3] [4; 5; 6] (Some "earth"%string) (Some "ssb"%string)
           _ eq_refl).
Defined.

(** Adding labelled vectors [a->b] and [c->d]: if [b = c] the sum is
    [a->d]; otherwise, if [a = d], it is [c->b]; otherwise [__add__]
    raises [ValueError]. On success [pos] and [vel] are the elementwise
    sums. *)
Theorem posvel_add_labels pu vu pv vv a b c d u v
  (Hu : new_PosVel pu vu (Some b) (Some a) = Ok u)
  (Hv : new_PosVel pv vv (Some d) (Some c) = Ok v) :
  (b = c -> posvel_add u v =
     Ok (mk_PosVel (vec_add pu pv) (vec_add vu vv) (Some d) (Some a))) /\
  (b <> c -> a = d -> posvel_add u v =
     Ok (mk_PosVel (vec_add pu pv) (vec_add vu vv) (Some b) (Some c))) /\
  (b <> c -> a <> d -> posvel_add u v = Raise ValueError).
Proof. exact (add_labelled pu vu pv vv a b c d u v Hu Hv). Qed.

Lemma posvel_add_labels_witness :
  posvel_add (mk_PosVel [1; 0; 0] [0; 1; 0] (Some "earth"%string) (Some "ssb"%string))
             (mk_PosVel [0; 0; 2] [0; 0; 1] (Some "moon"%string) (Some "earth"%string))
  = Ok (mk_PosVel (vec_add [1; 0; 0] [0; 0; 2]) (vec_add [0; 1; 0] [0; 0; 1])
          (Some "moon"%string) (Some "ssb"%string)).
Proof.
  exact (proj1 (posvel_add_labels [1; 0; 0] [0; 1; 0] [0; 0; 2] [0; 0; 1]
                  "ssb"%string "earth"%string "earth"%string "moon"%string _ _
                  eq_refl eq_refl) eq_refl).
Defined.

(** If either operand carries no labels, [__add__] performs no label
    check: the sum of two valid 3-vectors is always returned, unlabelled,
    in either order. *)
Theorem posvel_add_unlabelled pu vu pv vv ov rv u v
  (Hu : new_PosVel pu vu None None = Ok u)
  (Hv : new_PosVel pv vv ov rv = Ok v) :
  posvel_add u v = Ok (mk_PosVel (vec_add pu pv) (vec_add vu vv) None None) /\
  posvel_add v u = Ok (mk_PosVel (vec_add pv pu) (vec_add vv vu) None None).
Proof.
  apply new_PosVel_Ok in Hu as [-> [Hpu [Hvu _]]].
  apply new_PosVel_Ok in Hv as [-> [Hpv [Hvv _]]].
  unfold posvel_add, has_labels. cbn [obj origin pos vel is_None negb andb bind].
  rewrite andb_false_r. cbn [bind].
  split; apply new_PosVel_valid; auto using vec_add_length.
Qed.

Lemma posvel_add_unlabelled_witness :
  posvel_add (mk_PosVel [1; 2; 3] [0; 0; 0] None None)
             (mk_PosVel [1; 1; 1] [2; 2; 2] (Some "moon"%string) (Some "earth"%string))
  = Ok (mk_PosVel (vec_add [1; 2; 3] [1; 1; 1]) (vec_add [0; 0; 0] [2; 2; 2]) None None).
Proof.
  exact (proj1 (posvel_add_unlabelled [1; 2; 3] [0; 0; 0] [1; 1; 1] [2; 2; 2]
                  (Some "moon"%string) (Some "earth"%string) _ _ eq_refl eq_refl)).
Defined.

(** Subtracting labelled vectors [a->b] and [c->d] ([u - v], i.e.
    [u + (-v)] with [-v] the vector [d->c]): if [b = d] the difference is
    [a->c]; otherwise, if [a = c], it is [d->b]; otherwise [ValueError].
    [pos] and [vel] are the elementwise differences. *)
Theorem posvel_sub_labels pu vu pv vv a b c d u v
  (Hu : new_PosVel pu vu (Some b) (Some a) = Ok u)
  (Hv : new_PosVel pv vv (Some d) (Some c) = Ok v) :
  (b = d -> posvel_sub u v =
     Ok (mk_PosVel (vec_add pu (map Qopp pv)) (vec_add vu (map Qopp vv)) (Some c) (Some a))) /\
  (b <> d -> a = c -> posvel_sub u v =
     Ok (mk_PosVel (vec_add pu (map Qopp pv)) (vec_add vu (map Qopp vv)) (Some b) (Some d))) /\
  (b <> d -> a <> c -> posvel_sub u v = Raise ValueError).
Proof.
  pose proof Hv as Hv'.
  apply new_PosVel_Ok in Hv' as [-> [Hpv [Hvv _]]].
  unfold posvel_sub, posvel_neg. cbn [pos vel obj origin].
  rewrite new_PosVel_valid by (rewrite ?length_map; auto). cbn [bind].
  apply (add_labelled pu vu (map Qopp pv) (map Qopp vv) a b d c u).
  - exact Hu.
  - apply new_PosVel_valid; rewrite ?length_map; auto.
Qed.

Lemma posvel_sub_labels_witness :
  posvel_sub (mk_PosVel [1; 0; 0] [0; 1; 0] (Some "earth"%string) (Some "ssb"%string))
             (mk_PosVel [0; 0; 2] [0; 0; 1] (Some "earth"%string) (Some "moon"%string))
  = Ok (mk_PosVel (vec_add [1; 0; 0] (map Qopp [0; 0; 2])) (vec_add [0; 1; 0] (map Qopp [0; 0; 1]))
          (Some "moon"%string) (Some "ssb"%string)).
Proof.
  exact (proj1 (posvel_sub_labels [1; 0; 0] [0; 1; 0] [0; 0; 2] [0; 0; 1]
                  "ssb"%string "earth"%string "moon"%string "earth"%string _ _
                  eq_refl eq_refl) eq_refl).
Defined.

(** ** [ELL1_check] *)

(** With [outstring=False] and a non-negative projected semi-major axis,
    the first test ([lhs * 50 < rhs]) never changes the answer:
    [ELL1_check] returns exactly [lhs * 5 < rhs]. *)
Theorem ELL1_check_threshold sqrt A1 E TRES NTOA (HA1 : 0 <= A1) :
  ELL1_check sqrt A1 E TRES NTOA = Qltb (A1 * E ^ 2 * 5) (TRES / sqrt NTOA).
Proof.
  unfold ELL1_check.
  destruct (Qltb (A1 * E ^ 2 * 50) (TRES / sqrt NTOA)) eqn:H50;
    [| destruct (Qltb (A1 * E ^ 2 * 5) (TRES / sqrt NTOA)); reflexivity].
  symmetry. apply Qltb_true. apply Qltb_true in H50.
  assert (HE : 0 <= E ^ 2) by (change (E ^ 2) with (E * E); unfold Qle; simpl; nia).
  assert (Hl : 0 <= A1 * E ^ 2) by (apply Qmult_le_0_compat; assumption).
  set (l := A1 * E ^ 2) in *. lra.
Qed.

Lemma ELL1_check_threshold_witness :
  0 <= 2 /\
  ELL1_check (fun x => x) 2 (1 # 10) (1 # 5) 1 = Qltb (2 * (1 # 10) ^ 2 * 5) ((1 # 5) / 1).
Proof.
  split; [discriminate|].
  apply (ELL1_check_threshold (fun x => x) 2 (1 # 10) (1 # 5) 1). discriminate.
Defined.

(** ** [FTest] *)




(** ** [numeric_partial] *)

Lemma py_index_spec len ix :
  match py_index len ix with
  | Some i => (i < len)%nat /\
              ((0 <= ix)%Z /\ Z.of_nat i = ix \/ (ix < 0)%Z /\ Z.of_nat i = (Z.of_nat len + ix)%Z)
  | None => (ix < - Z.of_nat len \/ Z.of_nat len <= ix)%Z
  end.
Proof.
  unfold py_index.
  destruct ((0 <=? ix)%Z && (ix <? Z.of_nat len)%Z) eqn:E1.
  - apply andb_true_iff in E1 as [E1 E2]. apply Z.leb_le in E1. apply Z.ltb_lt in E2.
    split; [lia | left; split; [lia | rewrite Z2Nat.id; lia]].
  - destruct ((- Z.of_nat len <=? ix)%Z && (ix <? 0)%Z) eqn:E3.
    + apply andb_true_iff in E3 as [E3 E4]. apply Z.leb_le in E3. apply Z.ltb_lt in E4.
      split; [lia | right; split; [lia | rewrite Z2Nat.id; lia]].
    + apply andb_false_iff in E1. apply andb_false_iff in E3.
      destruct E1 as [E1 | E1]; [apply Z.leb_gt in E1 | apply Z.ltb_ge in E1];
      destruct E3 as [E3 | E3]; try (apply Z.leb_gt in E3); try (apply Z.ltb_ge in E3); lia.
Qed.

Lemma py_index_nat len i : (i < len)%nat -> py_index len (Z.of_nat i) = Some i.
Proof.
  intro Hi. unfold py_index.
  replace ((0 <=? Z.of_nat i)%Z && (Z.of_nat i <? Z.of_nat len)%Z) with true
    by (symmetry; apply andb_true_iff; split; [apply Z.leb_le | apply Z.ltb_lt]; lia).
  rewrite Nat2Z.id. reflexivity.
Qed.

Lemma py_index_neg len ix :
  (- Z.of_nat len <= ix < 0)%Z -> py_index len ix = py_index len (ix + Z.of_nat len).
Proof.
  intro H. pose proof (py_index_spec len ix) as S1.
  pose proof (py_index_spec len (ix + Z.of_nat len)) as S2.
  destruct (py_index len ix) as [i|]; destruct (py_index len (ix + Z.of_nat len)) as [j|];
    try lia.
  f_equal. lia.
Qed.

(** [numeric_partial] raises [IndexError] exactly when [ix] is outside
    Python's index range [-len(args) <= ix < len(args)]; otherwise the
    only error it can raise is the [ValueError] of subtracting arrays of
    incompatible shapes; a negative [ix] addresses [args[ix + len(args)]]. *)
Theorem numeric_partial_IndexError f args ix delta :
  (numeric_partial f args ix delta = Raise IndexError <->
     (ix < - Z.of_nat (List.length args) \/ Z.of_nat (List.length args) <= ix)%Z) /\
  (forall e, numeric_partial f args ix delta = Raise e -> e = IndexError \/ e = ValueError) /\
  ((- Z.of_nat (List.length args) <= ix < 0)%Z ->
     numeric_partial f args ix delta = numeric_partial f args (ix + Z.of_nat (List.length args)) delta).
Proof.
  split; [|split].
  - unfold numeric_partial. pose proof (py_index_spec (List.length args) ix) as S.
    destruct (py_index (List.length args) ix) as [i|].
    + unfold np_map2.
      destruct (Nat.eqb _ _); [split; [discriminate | lia]|].
      destruct (f (list_set args i (nth i args 0 + delta / 2))) as [|x [|x' r2]];
        destruct (f (list_set args i (nth i args 0 - delta / 2))) as [|y [|y' r3]]; cbn [bind];
        (split; [discriminate | lia]).
    + tauto.
  - unfold numeric_partial. intros e He.
    destruct (py_index (List.length args) ix) as [i|].
    + unfold np_map2 in He.
      destruct (Nat.eqb _ _); [discriminate|].
      destruct (f (list_set args i (nth i args 0 + delta / 2))) as [|x [|x' r2]];
        destruct (f (list_set args i (nth i args 0 - delta / 2))) as [|y [|y' r3]]; cbn [bind] in He;
        (discriminate || (injection He as <-; right; reflexivity)).
    + injection He as <-. left. reflexivity.
  - intro H. unfold numeric_partial. rewrite (py_index_neg _ _ H). reflexivity.
Qed.

Lemma combine_map_same {A B C} (g : A -> B) (h : A -> C) l :
  combine (map g l) (map h l) = map (fun t => (g t, h t)) l.
Proof. induction l; simpl; [reflexivity | rewrite IHl; reflexivity]. Qed.

Definition quad (y : Q) (t : Q * Q * Q) : Q := let '(a, b, c) := t in a * y * y + b * y + c.

(** The symmetric difference of [numeric_partial] is exact for a function
    [f] whose outputs are quadratic in [args[ix]]: for every output
    component [a*y^2 + b*y + c] it returns [2*a*args[ix] + b]. *)
Theorem numeric_partial_quadratic f args ix delta coefs
  (Hix : (ix < List.length args)%nat) (Hd : ~ delta == 0)
  (Hf : forall y, f (list_set args ix y) = map (quad y) coefs) :
  exists ds, numeric_partial f args (Z.of_nat ix) delta = Ok ds /\
    Forall2 Qeq ds (map (fun '(a, b, _) => 2 * a * nth ix args 0 + b) coefs).
Proof.
  unfold numeric_partial.
  rewrite (py_index_nat _ _ Hix). set (x := nth ix args 0).
  rewrite !Hf, np_map2_eq by (rewrite !length_map; reflexivity). cbn [bind].
  eexists. split; [reflexivity|].
  rewrite combine_map_same, !map_map.
  clear Hf. induction coefs as [|[[a b] c] cs IH]; simpl; [constructor|].
  constructor; [|exact IH].
  unfold quad. field. exact Hd.
Qed.

Lemma numeric_partial_quadratic_witness :
  exists ds,
    numeric_partial (fun l => map (quad (nth 0 l 0)) [(3, 2, 1); (0, 1, 0)])
      [5; 7] (Z.of_nat 0) (1 # 1000) = Ok ds /\
    Forall2 Qeq ds (map (fun '(a, b, _) => 2 * a * nth 0 [5; 7] 0 + b) [(3, 2, 1); (0, 1, 0)]).
Proof.
  apply (numeric_partial_quadratic _ [5; 7] 0 (1 # 1000) [(3, 2, 1); (0, 1, 0)]).
  - simpl. lia.
  - discriminate.
  - intro y. reflexivity.
Defined.

(** ** Shape of the [dmxparse] output *)

Lemma get_row_key m ii row : get_row m ii = Ok row -> row_key row = ("DMX_" ++ ii)%string.
Proof.
  unfold get_row. intro H. inv_bind H. inv_bind H. inv_bind H. injection H as <-. reflexivity.
Qed.

Lemma mapM_get_row_keys m l rows :
  mapM (get_row m) l = Ok rows -> map row_key rows = map (fun ii => "DMX_" ++ ii)%string l.
Proof.
  revert rows; induction l as [|ii l IH]; intros rows H; simpl in H.
  - injection H as <-. reflexivity.
  - inv_bind H. inv_bind H. injection H as <-. simpl.
    rewrite (get_row_key _ _ _ Ha), (IH _ Ha0). reflexivity.
Qed.

Lemma dmxparse_Ok_rows sqrt f r :
  dmxparse sqrt f = Ok r ->
  exists rows, mapM (get_row (fmodel f)) (dmx_epochs (fmodel f)) = Ok rows /\
    bins r = map row_key rows /\ r1s r = map row_r1 rows /\ r2s r = map row_r2 rows /\
    dmxeps r = map (fun x => (row_r1 x + row_r2 x) / 2) rows /\
    List.length (dmxs r) = List.length rows /\ List.length (dmx_verrs r) = List.length rows.
Proof.
  unfold dmxparse. intro H.
  destruct (dmx_epochs (fmodel f)) as [|ep0 eps] eqn:Ee; [discriminate|].
  inv_bind H. rename a into rows. inv_bind H. destruct a as [[m me] ve].
  destruct (negb _ || negb _) eqn:Elen; [discriminate|].
  injection H as <-. cbn [bins r1s r2s dmxeps dmxs dmx_verrs].
  apply orb_false_iff in Elen as [_ E2]. apply negb_false_iff, Nat.eqb_eq in E2.
  rewrite length_map in E2.
  exists rows. rewrite !length_map. repeat split; auto.
Qed.

(** On success [dmxparse] returns one entry per DMX epoch in every
    array: [bins] are the parameter names ["DMX_" + ii] in the order of
    [dmx_epochs], [dmxs], [dmx_verrs], [r1s] and [r2s] have that length,
    and each [dmxeps] entry is the midpoint of the bin's [r1s] and [r2s]
    entries. *)
Theorem dmxparse_shape sqrt f r (H : dmxparse sqrt f = Ok r) :
  bins r = map (fun ii => "DMX_" ++ ii)%string (dmx_epochs (fmodel f)) /\
  List.length (dmxs r) = List.length (dmx_epochs (fmodel f)) /\
  List.length (dmx_verrs r) = List.length (dmx_epochs (fmodel f)) /\
  List.length (r1s r) = List.length (dmx_epochs (fmodel f)) /\
  List.length (r2s r) = List.length (dmx_epochs (fmodel f)) /\
  dmxeps r = map (fun '(a, b) => (a + b) / 2) (combine (r1s r) (r2s r)).
Proof.
  destruct (dmxparse_Ok_rows sqrt f r H)
    as [rows [Hm [Hb [H1 [H2 [He [Hd Hv]]]]]]].
  pose proof (mapM_length _ _ _ Hm) as Hl.
  rewrite Hb, (mapM_get_row_keys _ _ _ Hm), Hd, Hv, H1, H2, He, !length_map, Hl.
  repeat split.
  clear. induction rows as [|x xs IH]; [reflexivity | simpl; rewrite IH; reflexivity].
Qed.

Lemma dmxparse_shape_witness :
  exists r, dmxparse (fun q => q) (mk_fitter example_model None) = Ok r /\
  bins r = map (fun ii => "DMX_" ++ ii)%string (dmx_epochs (fmodel (mk_fitter example_model None))) /\
  List.length (dmxs r) = List.length (dmx_epochs (fmodel (mk_fitter example_model None))) /\
  List.length (dmx_verrs r) = List.length (dmx_epochs (fmodel (mk_fitter example_model None))) /\
  List.length (r1s r) = List.length (dmx_epochs (fmodel (mk_fitter example_model None))) /\
  List.length (r2s r) = List.length (dmx_epochs (fmodel (mk_fitter example_model None))) /\
  dmxeps r = map (fun '(a, b) => (a + b) / 2) (combine (r1s r) (r2s r)).
Proof.
  eexists. split; [vm_compute; reflexivity|].
  apply (dmxparse_shape (fun q => q) (mk_fitter example_model None)).
  vm_compute. reflexivity.
Defined.

(** ** [numeric_partials] *)

(** [sum(row * l)] and the affine map [l |-> [sum(row * l) + c for row, c in M]]. *)
Definition vdot (row l : list Q) : Q := qsum_list (map (fun '(a, b) => a * b) (combine row l)).

Definition affine (M : list (list Q * Q)) (l : list Q) : list Q :=
  map (fun '(row, c) => vdot row l + c) M.

Lemma vdot_list_set row l i v :
  (i < List.length l)%nat -> List.length row = List.length l ->
  vdot row (list_set l i v) == vdot row l + nth i row 0 * (v - nth i l 0).
Proof.
  unfold vdot, list_set. revert row l.
  induction i as [|i IH]; intros row l Hi Hr;
    destruct l as [|x l]; destruct row as [|a row]; simpl in *; try lia.
  - ring.
  - rewrite IH by lia. ring.
Qed.

Lemma nth_map_seq_any {A} (f : nat -> A) m j d :
  (j < m)%nat -> nth j (map f (seq 0 m)) d = f j.
Proof.
  intro Hj. rewrite (nth_indep _ d (f 0%nat)) by (rewrite length_map, length_seq; lia).
  rewrite map_nth, seq_nth by lia. reflexivity.
Qed.

Lemma nth_map_in {A B} (g : A -> B) l j d dd :
  (j < List.length l)%nat -> nth j (map g l) d = g (nth j l dd).
Proof. intro Hj. rewrite (nth_indep _ d (g dd)) by (rewrite length_map; exact Hj). apply map_nth. Qed.

Lemma Forall2_nth_at {A B} (P : A -> B -> Prop) l l' n d d' :
  Forall2 P l l' -> (n < List.length l)%nat -> P (nth n l d) (nth n l' d').
Proof.
  intro H. revert n. induction H as [|x y l l' Hxy H IH]; intros n Hn; simpl in *; [lia|].
  destruct n; [exact Hxy | apply IH; lia].
Qed.

Lemma mapM_Forall2 {A B} (g : A -> result B) (P : A -> B -> Prop) l :
  (forall x, In x l -> exists y, g x = Ok y /\ P x y) ->
  exists ys, mapM g l = Ok ys /\ Forall2 P l ys.
Proof.
  induction l as [|x xs IH]; intro H; simpl.
  - exists []. split; [reflexivity | constructor].
  - destruct (H x (or_introl eq_refl)) as [y [Hy Py]].
    destruct IH as [ys [Hys Pys]]; [intros; apply H; right; assumption|].
    rewrite Hy, Hys. exists (y :: ys). split; [reflexivity | constructor; assumption].
Qed.

Lemma numeric_partial_affine M args i delta :
  (i < List.length args)%nat -> ~ delta == 0 ->
  Forall (fun t => List.length (fst t) = List.length args) M ->
  exists d, numeric_partial (affine M) args (Z.of_nat i) delta = Ok d /\
    Forall2 Qeq d (map (fun t => nth i (fst t) 0) M).
Proof.
  intros Hi Hd HM. unfold numeric_partial.
  rewrite (py_index_nat _ _ Hi). set (x := nth i args 0).
  unfold affine. rewrite np_map2_eq by (rewrite !length_map; reflexivity). cbn [bind].
  eexists. split; [reflexivity|].
  rewrite combine_map_same, !map_map.
  induction HM as [|[row c] M Hrow HM IH]; simpl; [constructor|].
  constructor; [|exact IH].
  simpl in Hrow. rewrite !vdot_list_set by assumption. fold x. field. exact Hd.
Qed.

(** For an affine [f] (each output [sum(row * args) + c] with [row] as
    long as [args]) and a non-zero step, [numeric_partials] returns the
    exact Jacobian: one row per output, one column per argument, entry
    [(j, i)] the coefficient of argument [i] in output [j]. *)
Theorem numeric_partials_affine M args delta
  (Hargs : args <> []) (Hd : ~ delta == 0)
  (HM : Forall (fun t => List.length (fst t) = List.length args) M) :
  exists J, numeric_partials (affine M) args delta = Ok J /\
    List.length J = List.length M /\
    forall j, (j < List.length M)%nat ->
      List.length (nth j J []) = List.length args /\
      forall i, (i < List.length args)%nat ->
        nth i (nth j J []) 0 == nth i (fst (nth j M ([], 0))) 0.
Proof.
  unfold numeric_partials.
  destruct (mapM_Forall2 (fun i => numeric_partial (affine M) args (Z.of_nat i) delta)
              (fun i d => Forall2 Qeq d (map (fun t => nth i (fst t) 0) M))
              (seq 0 (List.length args))) as [r [Hr Pr]].
  { intros i Hin. apply in_seq in Hin.
    apply numeric_partial_affine; [lia | exact Hd | exact HM]. }
  rewrite Hr. cbn [bind].
  pose proof (mapM_length _ _ _ Hr) as Hlr. rewrite length_seq in Hlr.
  assert (Hrow : forall i, (i < List.length args)%nat ->
                 Forall2 Qeq (nth i r []) (map (fun t => nth i (fst t) 0) M)).
  { intros i Hi. pose proof (Forall2_nth_at _ _ _ i 0%nat [] Pr) as P.
    rewrite length_seq, seq_nth in P by lia. exact (P Hi). }
  assert (Hlen : forall row, In row r -> List.length row = List.length M).
  { intros row Hin. apply In_nth with (d := []) in Hin as [i [Hi <-]].
    rewrite Hlr in Hi. rewrite (Forall2_length (Hrow i Hi)), length_map. reflexivity. }
  destruct r as [|r0 rs] eqn:Er; [destruct args; simpl in Hlr; congruence|].
  rewrite <- Er in *. unfold np_T. rewrite Er, <- Er.
  rewrite (Hlen r0) by (rewrite Er; left; reflexivity).
  replace (forallb _ r) with true.
  2: { symmetry. apply forallb_forall. intros row Hin.
       rewrite (Hlen row Hin). apply Nat.eqb_refl. }
  eexists. split; [reflexivity|]. rewrite length_map, length_seq. split; [reflexivity|].
  intros j Hj. rewrite nth_map_seq_any by exact Hj. rewrite length_map, Hlr. split; [reflexivity|].
  intros i Hi.
  rewrite (nth_indep _ 0 (nth j [] 0)) by (rewrite length_map; lia).
  rewrite (map_nth (fun row => nth j row 0)). cbn [nth].
  pose proof (Forall2_nth_at _ _ _ j 0 0 (Hrow i Hi)) as P.
  rewrite (Forall2_length (Hrow i Hi)), length_map in P.
  rewrite (P Hj).
  rewrite (nth_map_in _ M j _ ([], 0) Hj). reflexivity.
Qed.

Definition sample_affine : list (list Q * Q) := [([2; 3], 1); ([0; -1], 4); ([5; 7], 0)].

Definition sample_args : list Q := [1; 2].

Lemma numeric_partials_affine_witness :
  exists J, numeric_partials (affine sample_affine) sample_args (1 # 1000) = Ok J /\
    List.length J = List.length sample_affine /\
    forall j, (j < List.length sample_affine)%nat ->
      List.length (nth j J []) = List.length sample_args /\
      forall i, (i < List.length sample_args)%nat ->
        nth i (nth j J []) 0 == nth i (fst (nth j sample_affine ([], 0))) 0.
Proof.
  apply numeric_partials_affine.
  - discriminate.
  - discriminate.
  - unfold sample_affine, sample_args. repeat constructor.
Defined.

(** ** [pulsar_mass] and [companion_mass] *)

Lemma Qcube_neq0 s : ~ s == 0 -> ~ s ^ 3 == 0.
Proof.
  intros Hs H. setoid_replace (s ^ 3) with (s * s * s) in H by ring.
  apply Qmult_integral in H as [H | H]; [apply Qmult_integral in H as [H | H] |]; contradiction.
Qed.

(** When [np.sqrt] returns a square root of its argument, [pulsar_mass]
    inverts the mass function: the pulsar mass it returns, with the given
    companion mass and inclination, has [mass_funct2] equal to
    [mass_funct(pb, x)]. *)
Theorem pulsar_mass_round_trip pi G sin sqrt pb x mc inc
  (Hfm : ~ mass_funct pi G pb x == 0) (Hms : ~ mc * sin inc == 0)
  (Hsq : sqrt (4 * mass_funct pi G pb x * mc ^ 3 * sin inc ^ 3)
         * sqrt (4 * mass_funct pi G pb x * mc ^ 3 * sin inc ^ 3)
         == 4 * mass_funct pi G pb x * mc ^ 3 * sin inc ^ 3) :
  mass_funct2 sin (pulsar_mass pi G sin sqrt pb x mc inc) mc inc == mass_funct pi G pb x.
Proof.
  unfold mass_funct2, pulsar_mass. cbv zeta.
  set (fm := mass_funct pi G pb x) in *. set (s := sin inc) in *.
  set (r := sqrt (4 * fm * mc ^ 3 * s ^ 3)) in *.
  assert (Hr : ~ r == 0).
  { intro Hr0. rewrite Hr0 in Hsq.
    assert (E : 4 * fm * mc ^ 3 * s ^ 3 == 4 * fm * (mc * s) ^ 3) by ring.
    rewrite E in Hsq. symmetry in Hsq.
    apply Qmult_integral in Hsq as [H | H]; [apply Qmult_integral in H as [H | H] |].
    - discriminate.
    - contradiction.
    - exact (Qcube_neq0 _ Hms H). }
  assert (E : mc + (- (2 * fm * mc) + r) / (2 * fm) == r / (2 * fm)) by (field; exact Hfm).
  rewrite E.
  setoid_replace ((mc * s) ^ 3) with (r * r / (4 * fm)).
  - field. split; assumption.
  - rewrite Hsq. field. exact Hfm.
Qed.

Lemma pulsar_mass_round_trip_witness :
  mass_funct2 (fun _ => 1) (pulsar_mass 1 (49 # 4) (fun _ => 1) (fun _ => 8 # 7) 1 1 1 0) 1 0
  == mass_funct 1 (49 # 4) 1 1.
Proof.
  apply pulsar_mass_round_trip; vm_compute; (reflexivity || discriminate).
Defined.

Lemma np_sign_cube y (c : Q) : ~ y == 0 -> c ^ 3 == Qabs y -> (np_sign y * c) ^ 3 == y.
Proof.
  intros Hy Hc. unfold np_sign.
  destruct (Qltb 0 y) eqn:E1.
  - apply Qltb_true in E1. rewrite Qabs_pos in Hc by lra.
    rewrite <- Hc. ring.
  - apply Qltb_false in E1. destruct (Qltb y 0) eqn:E2.
    + apply Qltb_true in E2. rewrite Qabs_neg in Hc by lra.
      setoid_replace ((-1 * c) ^ 3) with (- c ^ 3) by ring.
      rewrite Hc. ring.
    + apply Qltb_false in E2. exfalso. apply Hy. apply Qle_antisym; assumption.
Qed.

(** When [np.sqrt] and the cube root are exact and the Cardano quantities
    are non-zero, [companion_mass] returns a root of the mass-function
    equation: with [mc] the returned mass,
    [(mc sin i)^3 = mass_funct(pb, x) (mc + mpsr)^2], that is
    [mass_funct2(mpsr, mc, inc) = mass_funct(pb, x)]. *)
Theorem companion_mass_root pi G sin sqrt cbrt pb x inc mpsr
  (Ha : ~ sin inc == 0)
  (HQ : let fm := mass_funct pi G pb x in
        let a := sin inc ^ 3 in
        let arg := 108 * a ^ 3 * mpsr ^ 3 * fm ^ 3 + 729 * a ^ 4 * mpsr ^ 4 * fm ^ 2 in
        sqrt arg * sqrt arg == arg)
  (HC : let fm := mass_funct pi G pb x in
        let a := sin inc ^ 3 in
        let Cc := (1 # 2) * ((-2 * fm ^ 3 - 18 * a * mpsr * fm ^ 2 - 27 * a ^ 2 * fm * mpsr ^ 2)
                             + sqrt (108 * a ^ 3 * mpsr ^ 3 * fm ^ 3
                                     + 729 * a ^ 4 * mpsr ^ 4 * fm ^ 2)) in
        ~ Cc == 0 /\ cbrt (Qabs Cc) ^ 3 == Qabs Cc) :
  let mc := companion_mass pi G sin sqrt cbrt pb x inc mpsr in
  (mc * sin inc) ^ 3 == mass_funct pi G pb x * (mc + mpsr) ^ 2.
Proof.
  cbv zeta in HQ, HC. unfold companion_mass. cbv zeta.
  set (fm := mass_funct pi G pb x) in *. set (s := sin inc) in *.
  set (a := s ^ 3) in *.
  set (d0 := fm ^ 2 + 6 * mpsr * fm * a).
  set (d1 := -2 * fm ^ 3 - 18 * a * mpsr * fm ^ 2 - 27 * a ^ 2 * fm * mpsr ^ 2) in *.
  set (Qv := sqrt (108 * a ^ 3 * mpsr ^ 3 * fm ^ 3 + 729 * a ^ 4 * mpsr ^ 4 * fm ^ 2)) in *.
  set (Cc := (1 # 2) * (d1 + Qv)) in *.
  destruct HC as [HCc HCr].
  set (C := np_sign Cc * cbrt (Qabs Cc)).
  assert (HC3 : C ^ 3 == Cc) by (apply np_sign_cube; assumption).
  assert (HC0 : ~ C == 0).
  { intro H0. apply HCc. rewrite <- HC3. rewrite H0. reflexivity. }
  assert (Ha0 : ~ a == 0) by (apply Qcube_neq0; exact Ha).
  assert (HQ2 : Qv * Qv == d1 ^ 2 - 4 * d0 ^ 3) by (rewrite HQ; unfold d0, d1; ring).
  assert (H4 : Cc * Cc - d1 * Cc + d0 ^ 3 == 0).
  { unfold Cc. setoid_replace (d0 ^ 3) with ((d1 ^ 2 - Qv * Qv) / 4) by (rewrite HQ2; field).
    field. }
  assert (Hy : (C + d0 / C) ^ 3 - 3 * d0 * (C + d0 / C) - d1 == 0).
  { setoid_replace ((C + d0 / C) ^ 3 - 3 * d0 * (C + d0 / C) - d1)
      with (C ^ 3 + d0 ^ 3 / C ^ 3 - d1) by (field; exact HC0).
    rewrite HC3.
    setoid_replace (Cc + d0 ^ 3 / Cc - d1) with ((Cc * Cc - d1 * Cc + d0 ^ 3) / Cc)
      by (field; exact HCc).
    rewrite H4. unfold Qdiv. ring. }
  set (xx := fm / 3 / a - C / 3 / a - d0 / 3 / a / C).
  assert (Hx : a * xx ^ 3 - fm * xx ^ 2 - 2 * fm * mpsr * xx - fm * mpsr ^ 2 ==
               - ((C + d0 / C) ^ 3 - 3 * d0 * (C + d0 / C) - d1) / (27 * a ^ 2)).
  { unfold xx, d0, d1. field. split; assumption. }
  rewrite Hy in Hx.
  assert (E : (xx * s) ^ 3 - fm * (xx + mpsr) ^ 2 ==
              a * xx ^ 3 - fm * xx ^ 2 - 2 * fm * mpsr * xx - fm * mpsr ^ 2)
    by (unfold a; ring).
  rewrite Hx in E.
  setoid_replace (- 0 / (27 * a ^ 2)) with 0 in E by (unfold Qdiv; ring).
  lra.
Qed.

Lemma companion_mass_root_witness :
  let mc := companion_mass 1 (49 # 4) (fun _ => 1) (fun _ => 1755 # 343) (fun _ => 43 # 49)
              1 1 0 (3 # 4) in
  (mc * 1) ^ 3 == mass_funct 1 (49 # 4) 1 1 * (mc + (3 # 4)) ^ 2.
Proof.
  apply (companion_mass_root 1 (49 # 4) (fun _ => 1) (fun _ => 1755 # 343) (fun _ => 43 # 49)
           1 1 0 (3 # 4)).
  - discriminate.
  - vm_compute. reflexivity.
  - split; vm_compute; [discriminate | reflexivity].
Defined.
